(** * WhisperTranscriber: chunking, timeline mapping and compilation

    A shallow embedding of [whisper_transcriber.py].  The script has no
    functions: it is one per-file loop (two variants, selected by
    [use_chunks]).  Each block of the script becomes one definition here,
    named after the variable or the loop it models.

    Conventions.
    - Python [int] is [Z]; [//] on a positive divisor is [Z.div] (floor).
    - A Python [float] that is finite is a rational; the only operation the
      script applies to one is [int(...)], truncation toward zero, so a
      segment's start time is a [Q] and [int] is [Z.quot] on its fraction.
    - A Python [str] is the list of its code points, [list N].
    - The [all_segments] dict is an association list in insertion order (the
      compile loop iterates it in that order); [unique_entries] is a [gset].
    - [model.transcribe] and [AudioSegment.from_file] are external; what
      they return (or that they raise) is an input of the model. *)

From Stdlib Require Import ZArith QArith Lia Ascii String.
From stdpp Require Import base list sorting lexico gmap strings pretty.

Local Open Scope Z_scope.
#[local] Set Warnings "-clear-no-such-hyp".

(** ** Python primitives used by the script *)

(** [str]: a sequence of code points. *)
Abbreviation str := (list N) (only parsing).

(** A string literal of the script, code point by code point (ASCII only). *)
Definition py_str (s : string) : str :=
  (λ a, N_of_ascii a) <$> list_ascii_of_string s.

(** [str.isspace] on one code point: the characters CPython's
    [_PyUnicode_IsWhitespace] accepts. *)
Definition is_space (c : N) : bool :=
  ((9 <=? c) && (c <=? 13) || (28 <=? c) && (c <=? 32)
   || (c =? 133) || (c =? 160) || (c =? 5760)
   || (8192 <=? c) && (c <=? 8202)
   || (c =? 8232) || (c =? 8233) || (c =? 8239) || (c =? 8287)
   || (c =? 12288))%N.

Fixpoint lstrip (s : str) : str :=
  match s with
  | [] => []
  | c :: r => if is_space c then lstrip r else s
  end.

Definition rstrip (s : str) : str := reverse (lstrip (reverse s)).

(** [s.strip()] *)
Definition strip (s : str) : str := rstrip (lstrip s).

(** [int(x)] for a finite float [x]: truncation toward zero. *)
Definition int (x : Q) : Z := Z.quot (Qnum x) (Z.pos (Qden x)).

(** [len(range(start, stop, step))] for [step > 0], as CPython computes it. *)
Definition range_len (start stop step : Z) : nat :=
  if stop <=? start then 0%nat
  else Z.to_nat ((stop - start - 1) `div` step + 1).

(** [list(range(start, stop, step))] for [step > 0] (the only use: the step
    is [chunk_length_ms]). *)
Definition py_range (start stop step : Z) : list Z :=
  (λ k : nat, start + Z.of_nat k * step) <$> seq 0 (range_len start stop step).

(** [<] on tuples [(int, str)]: first difference decides, strings compare
    code point by code point. *)
Abbreviation Entry := (Z * list N)%type (only parsing).

Definition entry_lt : relation Entry := lexico.

(** The order a list is in after [sorted]: no element is [<] an earlier one. *)
Definition entry_le : relation Entry := λ a b, a = b ∨ entry_lt a b.

Global Instance entry_le_dec (a b : Entry) : Decision (entry_le a b).
Proof. unfold entry_le, entry_lt. apply _. Defined.

(** [sorted(segments)].  The order on entries is total and antisymmetric, so
    the sorted permutation of a list is unique ([sorted_unique] below) and
    any sorting algorithm returns it. *)
Definition sorted (l : list Entry) : list Entry := merge_sort entry_le l.

(** ** Configuration (lines 41-43, 61-62) *)

Record Config := {
  chunk_duration_min : Z;   (* duration of each chunk in minutes *)
  chunk_overlap_sec : Z     (* seconds of overlap between chunks *)
}.

(** The values the script is shipped with. *)
Definition script_config : Config :=
  {| chunk_duration_min := 1; chunk_overlap_sec := 10 |}.

Definition chunk_duration_sec (cfg : Config) : Z := chunk_duration_min cfg * 60.
Definition chunk_length_ms (cfg : Config) : Z := chunk_duration_sec cfg * 1000.
Definition overlap_ms (cfg : Config) : Z := chunk_overlap_sec cfg * 1000.

(** ** Windows (lines 64-76) *)

(** One iteration of the chunk loop: the index, the start point, and the
    bounds handed to the slice [audio[start_ms:end_ms]]. *)
Record Window := {
  w_idx : Z;
  start_point : Z;
  start_ms : Z;
  end_ms : Z
}.

Global Instance Window_eq_dec : EqDecision Window.
Proof. solve_decision. Defined.

Definition start_points (cfg : Config) (total_length : Z) : list Z :=
  py_range 0 total_length (chunk_length_ms cfg).

Definition chunk_window (cfg : Config) (idx start_point : Z) : Window :=
  if idx =? 0 then
    {| w_idx := idx; start_point := start_point;
       start_ms := 0;
       end_ms := chunk_length_ms cfg + overlap_ms cfg |}
  else
    {| w_idx := idx; start_point := start_point;
       start_ms := start_point - overlap_ms cfg;
       end_ms := start_point + chunk_length_ms cfg + overlap_ms cfg |}.

(** [enumerate(start_points)] with the loop body's bounds. *)
Definition windows (cfg : Config) (total_length : Z) : list Window :=
  imap (λ i sp, chunk_window cfg (Z.of_nat i) sp) (start_points cfg total_length).

(** pydub's [audio[a:b]] on an audio of [total_length] ms: both bounds are
    first clamped to the length, then a negative position counts from the
    end.  The pair is the extent of audio the chunk holds. *)
Definition parse_position (total_length v : Z) : Z :=
  if v <? 0 then total_length - Z.abs v else v.

Definition slice_extent (total_length a b : Z) : Z * Z :=
  (parse_position total_length (Z.min a total_length),
   parse_position total_length (Z.min b total_length)).

(** The four offsets of a window, in milliseconds.  The read range is the
    extent of the slice; the nominal range is the range of start times the
    compile loop keeps for the window (lines 118-121), which the script
    states in seconds. *)
Definition owner_lo (cfg : Config) (idx : Z) : Z := idx * chunk_duration_sec cfg.
Definition owner_hi (cfg : Config) (idx : Z) : Z := (idx + 1) * chunk_duration_sec cfg.

Definition read_start (total_length : Z) (w : Window) : Z :=
  (slice_extent total_length (start_ms w) (end_ms w)).1.
Definition read_end (total_length : Z) (w : Window) : Z :=
  (slice_extent total_length (start_ms w) (end_ms w)).2.
Definition nominal_start (w : Window) : Z := start_point w.
Definition nominal_end (cfg : Config) (w : Window) : Z :=
  owner_hi cfg (w_idx w) * 1000.

(** ** Transcription results and the chunk loop (lines 68-106) *)

(** One element of [result["segments"]]: the fields the script reads. *)
Record Segment := {
  seg_start : Q;     (* segment["start"], seconds from the start of the chunk *)
  seg_text : list N  (* segment["text"] *)
}.

(** Lines 96-97: the pair the script writes and collects for a segment of
    the chunk cut at [start_ms]. *)
Definition to_entry (w : Window) (s : Segment) : Entry :=
  (int (seg_start s) + start_ms w `div` 1000, strip (seg_text s)).

(** Lines 104-106: [all_segments[idx].append(e)], creating the key (at the
    end of the dict's order) when it is new. *)
Fixpoint dict_append (d : list (Z * list Entry)) (idx : Z) (e : Entry)
  : list (Z * list Entry) :=
  match d with
  | [] => [(idx, [e])]
  | (k, v) :: d' =>
      if decide (k = idx) then (k, v ++ [e]) :: d'
      else (k, v) :: dict_append d' idx e
  end.

(** Names of the files the script writes in [output_dir]:
    ["{stem}_part{idx+1:02d}.txt"] and ["{stem}.txt"]. *)
Inductive OutName :=
  | ChunkText (stem : string) (part : Z)
  | Transcript (stem : string).

(** A file written: its name and its lines, each line ["[timestamp] text"]
    kept as the pair it is formatted from. *)
Abbreviation Written := (OutName * list (Z * list N))%type (only parsing).

(** One input path of the directory scan, with what the external
    collaborators answer for it. *)
Record AudioFile := {
  stem : string;                 (* audio_file.stem *)
  suffix_lower : string;         (* audio_file.suffix.lower() *)
  from_file : option Z;          (* len(audio) in ms; None: from_file raises *)
  transcribe_chunk : Z → option (list Segment);
                                 (* model.transcribe on chunk idx; None: raises *)
  transcribe_file : option (list Segment)
                                 (* model.transcribe on the whole file *)
}.

Definition audio_extensions : list string :=
  [".mp3"; ".wav"; ".m4a"; ".flac"; ".ogg"]%string.

(** The body of the chunk loop for one window: on an exception of
    [model.transcribe] the iteration ends ([continue]); otherwise the chunk's
    transcript is written and its entries are appended to [all_segments].
    Lines 100-101 are taken to run through for every segment;
    [chunk_loop_checked] below is the loop with the exit when they do not. *)
Definition chunk_step (f : AudioFile)
    (st : list (Z * list Entry) * list Written) (w : Window)
  : list (Z * list Entry) * list Written :=
  match transcribe_chunk f (w_idx w) with
  | None => st
  | Some segments =>
      let entries := to_entry w <$> segments in
      (foldl (λ d e, dict_append d (w_idx w) e) st.1 entries,
       st.2 ++ [(ChunkText (stem f) (w_idx w + 1), entries)])
  end.

Definition chunk_loop (cfg : Config) (f : AudioFile) (total_length : Z)
  : list (Z * list Entry) * list Written :=
  foldl (chunk_step f) ([], []) (windows cfg total_length).

(** ** The compile loop (lines 108-124) *)

(** Lines 118-121, the two range tests a written entry has passed. *)
Definition owned (cfg : Config) (idx sec : Z) : bool :=
  negb (sec <? owner_lo cfg idx) && negb (owner_hi cfg idx <=? sec).

(** The inner loop over [sorted(segments)]: the set [unique_entries] after
    it and the lines written during it. *)
Fixpoint compile_segments (cfg : Config) (idx : Z)
    (unique_entries : gset (Z * list N)) (segments : list Entry)
  : gset (Z * list N) * list Entry :=
  match segments with
  | [] => (unique_entries, [])
  | (sec, text) :: rest =>
      if decide ((sec, text) ∈ unique_entries) then
        compile_segments cfg idx unique_entries rest
      else if sec <? idx * chunk_duration_sec cfg then
        compile_segments cfg idx unique_entries rest
      else if (idx + 1) * chunk_duration_sec cfg <=? sec then
        compile_segments cfg idx unique_entries rest
      else
        let r := compile_segments cfg idx ({[ (sec, text) ]} ∪ unique_entries) rest in
        (r.1, (sec, text) :: r.2)
  end.

(** The outer loop over [all_segments.items()].  The lines written are kept
    grouped under the [idx] that was current when they were written; the
    file holds them in this order without the grouping. *)
Fixpoint compile_loop (cfg : Config) (unique_entries : gset (Z * list N))
    (all_segments : list (Z * list Entry)) : list (Z * list Entry) :=
  match all_segments with
  | [] => []
  | (idx, segments) :: rest =>
      let r := compile_segments cfg idx unique_entries (sorted segments) in
      (idx, r.2) :: compile_loop cfg r.1 rest
  end.

(** The lines of the compiled transcript ["{stem}.txt"]. *)
Definition compiled (cfg : Config) (all_segments : list (Z * list Entry))
  : list Entry :=
  mjoin ((compile_loop cfg ∅ all_segments).*2).

(** ** Per-file processing and the two batch loops *)

(** Lines 50-126 for a file whose audio decoded to [total_length] ms. *)
Definition process_file (cfg : Config) (f : AudioFile) (total_length : Z)
  : list Written :=
  let r := chunk_loop cfg f total_length in
  r.2 ++ [(Transcript (stem f), compiled cfg r.1)].

(** How the script ends: it reaches its last line, or an exception nothing
    catches ends it. *)
Inductive Status := Finished | Uncaught.

(** Lines 46-126.  [AudioSegment.from_file] (line 60) is outside any [try]:
    when it raises the script stops.  This is the loop of the runs in which
    every line gets written; [chunked_batch_checked] below adds the exit on a
    line that cannot be. *)
Fixpoint chunked_batch (cfg : Config) (files : list AudioFile)
  : list Written * Status :=
  match files with
  | [] => ([], Finished)
  | f :: rest =>
      if bool_decide (suffix_lower f ∈ audio_extensions) then
        match from_file f with
        | None => ([], Uncaught)
        | Some total_length =>
            let r := chunked_batch cfg rest in
            (process_file cfg f total_length ++ r.1, r.2)
        end
      else chunked_batch cfg rest
  end.

(** Lines 130-157: whole-file transcription.  The [try] covers only
    [model.transcribe] (line 141); [from_file] (line 137) is outside it.
    This is the loop of the runs in which every line gets written;
    [whole_batch_checked] below adds the exit on a line that cannot be. *)
Fixpoint whole_batch (files : list AudioFile) : list Written * Status :=
  match files with
  | [] => ([], Finished)
  | f :: rest =>
      if bool_decide (suffix_lower f ∈ audio_extensions) then
        match from_file f with
        | None => ([], Uncaught)
        | Some _ =>
            let r := whole_batch rest in
            match transcribe_file f with
            | None => r
            | Some segments =>
                ((Transcript (stem f),
                  (λ s, (int (seg_start s), strip (seg_text s))) <$> segments)
                   :: r.1, r.2)
            end
        end
      else whole_batch rest
  end.

(** Line 37 and the [if use_chunks] at line 40. *)
Definition use_chunks (model_name : string) : bool :=
  bool_decide (model_name ∈ ["medium"; "large"]%string).

Definition script (model_name : string) (cfg : Config) (files : list AudioFile)
  : list Written * Status :=
  if use_chunks model_name then chunked_batch cfg files else whole_batch files.

(** ** Derived views of the two loops *)

(** The lines the compile loop writes for one item of [all_segments] when
    no entry has been written yet. *)
Definition window_lines (cfg : Config) (p : Z * list Entry) : list Entry :=
  (compile_segments cfg p.1 ∅ (sorted p.2)).2.

(** What one window leaves in [all_segments]: nothing when the call failed
    or returned no segment, else its index with the entries in order. *)
Definition window_entries (f : AudioFile) (w : Window)
  : option (Z * list Entry) :=
  match transcribe_chunk f (w_idx w) with
  | Some (s :: segments) => Some (w_idx w, to_entry w <$> (s :: segments))
  | _ => None
  end.

(** The chunk transcript one window leaves in [output_dir]. *)
Definition window_file (f : AudioFile) (w : Window)
  : option (OutName * list Entry) :=
  match transcribe_chunk f (w_idx w) with
  | Some segments =>
      Some (ChunkText (stem f) (w_idx w + 1), to_entry w <$> segments)
  | None => None
  end.


(** ** Sample inputs

    Four files of a scan, all of 125 s when they decode: one whose first two
    windows both report the word at second 60, one whose first window reports
    two segments in the same second, one whose second window fails, and one
    that does not decode. *)
Definition hello_file : AudioFile :=
  {| stem := "hello"; suffix_lower := ".mp3"; from_file := Some 125000;
     transcribe_chunk := λ idx,
       if idx =? 0 then Some [ {| seg_start := 121 # 2; seg_text := py_str " hello" |} ]
       else if idx =? 1 then Some [ {| seg_start := 41 # 4; seg_text := py_str "hello " |} ]
       else Some [];
     transcribe_file := Some [] |}.

Definition tie_file : AudioFile :=
  {| stem := "tie"; suffix_lower := ".wav"; from_file := Some 125000;
     transcribe_chunk := λ idx,
       if idx =? 0 then
         Some [ {| seg_start := 5 # 1; seg_text := py_str "b" |};
                {| seg_start := 11 # 2; seg_text := py_str "a" |} ]
       else Some [];
     transcribe_file := Some [] |}.

Definition gap_file : AudioFile :=
  {| stem := "gap"; suffix_lower := ".ogg"; from_file := Some 125000;
     transcribe_chunk := λ idx,
       if idx =? 0 then Some [ {| seg_start := 7 # 2; seg_text := py_str " hi " |} ]
       else if idx =? 1 then None
       else Some [ {| seg_start := 12 # 1; seg_text := py_str "bye" |} ];
     transcribe_file := None |}.

Definition bad_file : AudioFile :=
  {| stem := "bad"; suffix_lower := ".mp3"; from_file := None;
     transcribe_chunk := λ _, Some []; transcribe_file := Some [] |}.


(** ** Text written to the files (lines 79-80, 100-101, 110, 123-124) *)

(** ["{:02d}".format(n)]: decimal, padded with a zero to two characters. *)
Definition fmt_02d (n : Z) : string :=
  let s := pretty n in
  if (String.length s <? 2)%nat then "0" +:+ s else s.

(** ["%d:%02d:%02d" % (hh, mm, ss)], the clock part of a [timedelta]. *)
Definition clock (hh mm ss : Z) : string :=
  pretty hh +:+ ":" +:+ fmt_02d mm +:+ ":" +:+ fmt_02d ss.

(** ["%d day%s, " % plural(days)], put in front when [days] is not zero. *)
Definition day_part (days : Z) : string :=
  if decide (days = 0) then ""
  else pretty days +:+ " day"
         +:+ (if decide (Z.abs days = 1) then "" else "s") +:+ ", ".

(** [str(timedelta(seconds=n))] for an [int] [n]: [None] when the number of
    days is beyond what a [timedelta] holds (the constructor raises
    [OverflowError]). *)
Definition timestamp (seconds : Z) : option string :=
  let days := seconds `div` 86400 in
  let s := seconds `mod` 86400 in
  if decide (Z.abs days ≤ 999999999) then
    let mm := s `div` 60 in
    let ss := s `mod` 60 in
    let hh := mm `div` 60 in
    let mm := mm `mod` 60 in
    Some (day_part days +:+ clock hh mm ss)
  else None.

(** ["[{}] {}\n".format(timestamp, text)], the string handed to [f.write]. *)
Definition format_line (e : Entry) : option (list N) :=
  ts ← timestamp e.1;
  Some (py_str ("[" +:+ ts +:+ "] ") ++ e.2 ++ [10%N]).

(** The name under which a file is written in [output_dir]. *)
Definition file_name (n : OutName) : string :=
  match n with
  | ChunkText stem part => stem +:+ "_part" +:+ fmt_02d part +:+ ".txt"
  | Transcript stem => stem +:+ ".txt"
  end.


(** [all_segments[idx]] when [idx in all_segments] (lines 104-106). *)
Fixpoint dict_get (d : list (Z * list Entry)) (idx : Z) : option (list Entry) :=
  match d with
  | [] => None
  | (k, v) :: d' => if decide (k = idx) then Some v else dict_get d' idx
  end.

(** The characters of decimal numerals and of timestamps. *)
Definition is_digit (a : ascii) : Prop := (48 ≤ N_of_ascii a ≤ 57)%N.

Definition is_ts_char (a : ascii) : Prop :=
  is_digit a ∨ a ∈ ["-"; ":"; " "; "d"; "a"; "y"; "s"; ","]%char.

(** A file whose every chunk makes [model.transcribe] raise. *)
Definition mute_file : AudioFile :=
  {| stem := "mute"; suffix_lower := ".flac"; from_file := Some 125000;
     transcribe_chunk := λ _, None; transcribe_file := None |}.

(** A file of 30 s, one window, three segments in order. *)
Definition short_file : AudioFile :=
  {| stem := "short"; suffix_lower := ".m4a"; from_file := Some 30000;
     transcribe_chunk := λ _,
       Some [ {| seg_start := 1 # 2; seg_text := py_str " one" |};
              {| seg_start := 9 # 2; seg_text := py_str " two" |};
              {| seg_start := 21 # 1; seg_text := py_str " three" |} ];
     transcribe_file :=
       Some [ {| seg_start := 1 # 2; seg_text := py_str " one" |};
              {| seg_start := 9 # 2; seg_text := py_str " two" |};
              {| seg_start := 21 # 1; seg_text := py_str " three" |} ] |}.

(** A path of the scan that is not an audio file. *)
Definition notes_file : AudioFile :=
  {| stem := "notes"; suffix_lower := ".txt"; from_file := None;
     transcribe_chunk := λ _, None; transcribe_file := None |}.

(** A file of 125 s whose first window reports a segment two seconds before
    the start of its chunk and whose last window reports one at second 125
    and one at second 180. *)
Definition edge_file : AudioFile :=
  {| stem := "edge"; suffix_lower := ".wav"; from_file := Some 125000;
     transcribe_chunk := λ idx,
       if idx =? 0 then
         Some [ {| seg_start := (-2) # 1; seg_text := py_str "early" |} ]
       else if idx =? 2 then
         Some [ {| seg_start := 15 # 1; seg_text := py_str "at125" |};
                {| seg_start := 70 # 1; seg_text := py_str "at180" |} ]
       else Some [];
     transcribe_file := Some [] |}.

(** ** Lines that cannot be written (lines 100-101, 123-124, 154-155)

    [chunk_step], [process_file] and the two batch loops above describe the
    runs in which every line gets written.  Two statements after
    [model.transcribe] has returned can still raise, outside every [try]:
    [timedelta(seconds=start_sec)], when the number of days is out of range,
    and [f.write], when the UTF-8 codec meets a surrogate in the text.  The
    definitions below are the same loops with that exit. *)

(** A code point the UTF-8 codec refuses to encode. *)
Definition is_surrogate (c : N) : bool := ((55296 <=? c) && (c <=? 57343))%N.

(** Whether lines 100-101 run through for an entry. *)
Definition writable (e : Entry) : bool :=
  bool_decide (is_Some (timestamp e.1))
  && forallb (λ c, negb (is_surrogate c)) e.2.

(** The entries of a transcription result written (and collected) before the
    first one that raises. *)
Fixpoint written_before (entries : list Entry) : list Entry :=
  match entries with
  | [] => []
  | e :: rest => if writable e then e :: written_before rest else []
  end.

(** The chunk loop from a given state: a window whose entries are all
    writable is processed as by [chunk_step]; at the first entry that is not,
    the chunk transcript holds the lines before it, [all_segments] the
    entries before it, and the script ends. *)
Fixpoint chunk_loop_checked (f : AudioFile)
    (st : list (Z * list Entry) * list Written) (ws : list Window)
  : (list (Z * list Entry) * list Written) * Status :=
  match ws with
  | [] => (st, Finished)
  | w :: ws' =>
      match transcribe_chunk f (w_idx w) with
      | None => chunk_loop_checked f st ws'
      | Some segments =>
          let entries := to_entry w <$> segments in
          let kept := written_before entries in
          let st' :=
            (foldl (λ d e, dict_append d (w_idx w) e) st.1 kept,
             st.2 ++ [(ChunkText (stem f) (w_idx w + 1), kept)]) in
          if forallb writable entries then chunk_loop_checked f st' ws'
          else (st', Uncaught)
      end
  end.

(** Lines 50-126 with that exit.  The compile loop formats and writes only
    entries of [all_segments], which lines 100-101 have already formatted and
    written once, so it adds no exit of its own. *)
Definition process_file_checked (cfg : Config) (f : AudioFile)
    (total_length : Z) : list Written * Status :=
  let r := chunk_loop_checked f ([], []) (windows cfg total_length) in
  match r.2 with
  | Finished =>
      (r.1.2 ++ [(Transcript (stem f), compiled cfg r.1.1)], Finished)
  | Uncaught => (r.1.2, Uncaught)
  end.

Fixpoint chunked_batch_checked (cfg : Config) (files : list AudioFile)
  : list Written * Status :=
  match files with
  | [] => ([], Finished)
  | f :: rest =>
      if bool_decide (suffix_lower f ∈ audio_extensions) then
        match from_file f with
        | None => ([], Uncaught)
        | Some total_length =>
            let r := process_file_checked cfg f total_length in
            match r.2 with
            | Finished =>
                let r' := chunked_batch_checked cfg rest in
                (r.1 ++ r'.1, r'.2)
            | Uncaught => (r.1, Uncaught)
            end
        end
      else chunked_batch_checked cfg rest
  end.

(** Lines 130-157 with the exit at lines 154-155. *)
Fixpoint whole_batch_checked (files : list AudioFile)
  : list Written * Status :=
  match files with
  | [] => ([], Finished)
  | f :: rest =>
      if bool_decide (suffix_lower f ∈ audio_extensions) then
        match from_file f with
        | None => ([], Uncaught)
        | Some _ =>
            match transcribe_file f with
            | None => whole_batch_checked rest
            | Some segments =>
                let entries :=
                  (λ s, (int (seg_start s), strip (seg_text s))) <$> segments in
                if forallb writable entries then
                  let r := whole_batch_checked rest in
                  ((Transcript (stem f), entries) :: r.1, r.2)
                else
                  ([(Transcript (stem f), written_before entries)], Uncaught)
            end
        end
      else whole_batch_checked rest
  end.

Definition script_checked (model_name : string) (cfg : Config)
    (files : list AudioFile) : list Written * Status :=
  if use_chunks model_name then chunked_batch_checked cfg files
  else whole_batch_checked files.

(** Every line the script would write for a file, in the variant chosen, can
    be written. *)
Definition lines_writable (chunked : bool) (cfg : Config) (f : AudioFile)
  : Prop :=
  if chunked then
    ∀ total w segments,
      from_file f = Some total → w ∈ windows cfg total →
      transcribe_chunk f (w_idx w) = Some segments →
      Forall (λ e, writable e = true) (to_entry w <$> segments)
  else
    ∀ segments,
      transcribe_file f = Some segments →
      Forall (λ e, writable e = true)
        ((λ s, (int (seg_start s), strip (seg_text s))) <$> segments).

(** A file whose second window reports a start time no [timedelta] holds. *)
Definition big_file : AudioFile :=
  {| stem := "big"; suffix_lower := ".mp3"; from_file := Some 125000;
     transcribe_chunk := λ idx,
       if idx =? 0 then Some [ {| seg_start := 3 # 1; seg_text := py_str "a" |} ]
       else if idx =? 1 then
         Some [ {| seg_start := 4 # 1; seg_text := py_str "b" |};
                {| seg_start := 100000000000000 # 1; seg_text := py_str "c" |};
                {| seg_start := 5 # 1; seg_text := py_str "d" |} ]
       else Some [ {| seg_start := 12 # 1; seg_text := py_str "e" |} ];
     transcribe_file :=
       Some [ {| seg_start := 100000000000000 # 1; seg_text := py_str "c" |} ] |}.

(** * Properties *)

(** ** [range] and the windows *)

Section windows.
Context (cfg : Config).
Implicit Types (total : Z) (i : nat) (w : Window).

Lemma range_len_lt start stop step (k : nat) :
  0 < step →
  (k < range_len start stop step)%nat ↔ start + Z.of_nat k * step < stop.
Proof.
  intros Hstep. unfold range_len.
  destruct (Z.leb_spec stop start) as [Hle|Hlt]; [split; [lia|nia]|].
  pose proof (Z.div_mod (stop - start - 1) step ltac:(lia)) as Hdm.
  pose proof (Z.mod_pos_bound (stop - start - 1) step Hstep) as Hm.
  assert (0 ≤ (stop - start - 1) `div` step) by (apply Z.div_pos; lia).
  split; intros Hk; nia.
Qed.

Lemma py_range_lookup start stop step i x :
  0 < step →
  py_range start stop step !! i = Some x ↔
  x = start + Z.of_nat i * step ∧ x < stop.
Proof.
  intros Hstep. unfold py_range. rewrite list_lookup_fmap.
  split.
  - intros Hx. destruct (seq _ _ !! i) as [k|] eqn:Hk; simplify_eq/=.
    apply lookup_seq in Hk as [-> Hlt]. simpl.
    split; [done|]. by apply range_len_lt.
  - intros [-> Hlt]. apply range_len_lt in Hlt; [|done].
    by rewrite lookup_seq_lt.
Qed.

Lemma windows_lookup total i w :
  0 < chunk_duration_min cfg →
  windows cfg total !! i = Some w ↔
  Z.of_nat i * chunk_length_ms cfg < total ∧
  w = chunk_window cfg (Z.of_nat i) (Z.of_nat i * chunk_length_ms cfg).
Proof.
  intros Hmin. unfold windows, start_points.
  rewrite list_lookup_imap.
  assert (0 < chunk_length_ms cfg) by (unfold chunk_length_ms, chunk_duration_sec; lia).
  split.
  - intros Hw. destruct (py_range _ _ _ !! i) as [sp|] eqn:Hsp; simplify_eq/=.
    apply py_range_lookup in Hsp as [-> ?]; [|done]. split; [lia|]. f_equal; lia.
  - intros [Hlt ->].
    assert (py_range 0 total (chunk_length_ms cfg) !! i = Some (Z.of_nat i * chunk_length_ms cfg)) as ->; [|done].
    apply py_range_lookup; [done|]. lia.
Qed.

Lemma script_lengths_pos :
  0 < chunk_duration_min cfg →
  0 < chunk_duration_sec cfg ∧ 0 < chunk_length_ms cfg.
Proof. unfold chunk_length_ms, chunk_duration_sec. lia. Qed.

(** C1 (amended).  With a positive chunk duration and an overlap shorter than
    a chunk, the chunk loop runs once for each start point [0], [L], [2L],
    ... below [total] ([L] the chunk length in ms).  Window [i] has its
    nominal start at [i * L]; its read range, the extent of the slice, starts
    at [0] for [i = 0] and at [max 0 (nominal_start - overlap)] after, and
    ends at [min total (min (nominal_start + L) total + overlap)].  The upper
    limit of the range the compile loop keeps for the window is
    [nominal_start + L]: it is not cut at [total].  For 125 s, 60 s and 10 s
    the three windows are nominal [0,60) read [0,70), nominal [60,120) read
    [50,125), and nominal [120,180) read [110,125). *)
Theorem windows_offsets total :
  0 < chunk_duration_min cfg →
  0 ≤ chunk_overlap_sec cfg < chunk_duration_sec cfg →
  (∀ i, is_Some (windows cfg total !! i) ↔
        Z.of_nat i * chunk_length_ms cfg < total) ∧
  (∀ i w, windows cfg total !! i = Some w →
     w_idx w = Z.of_nat i ∧
     nominal_start w = Z.of_nat i * chunk_length_ms cfg ∧
     nominal_start w < total ∧
     nominal_end cfg w = nominal_start w + chunk_length_ms cfg ∧
     read_start total w =
       (if decide (i = 0%nat) then 0
        else Z.max 0 (nominal_start w - overlap_ms cfg)) ∧
     read_end total w =
       Z.min total
         (Z.min (nominal_start w + chunk_length_ms cfg) total + overlap_ms cfg)) ∧
  (λ w, (nominal_start w, nominal_end script_config w,
         read_start 125000 w, read_end 125000 w))
    <$> windows script_config 125000
  = [(0, 60000, 0, 70000); (60000, 120000, 50000, 125000);
     (120000, 180000, 110000, 125000)].
Proof.
  intros Hmin Hov.
  destruct (script_lengths_pos Hmin) as [Hsec Hlen].
  split; [|split; [|by vm_compute]].
  - intros i. split.
    + intros [w Hw]. by apply windows_lookup in Hw as [? _].
    + intros Hlt. eexists. by apply windows_lookup.
  - intros i w Hw. apply windows_lookup in Hw as [Hlt ->]; [|done].
    assert (0 ≤ overlap_ms cfg < chunk_length_ms cfg) as Hovms
      by (unfold overlap_ms, chunk_length_ms; lia).
    unfold chunk_window, read_start, read_end, nominal_start, nominal_end,
      owner_hi, slice_extent, parse_position.
    fold (chunk_length_ms cfg).
    destruct (Z.eqb_spec (Z.of_nat i) 0) as [Hi|Hi]; simpl;
      (case_decide; [|]); try lia;
      repeat (match goal with
              | |- context [if ?a <? ?b then _ else _] =>
                  destruct (Z.ltb_spec a b)
              end);
      unfold chunk_length_ms in *; nia.
Qed.
End windows.

Lemma windows_offsets_witness :
  0 < chunk_duration_min script_config ∧
  0 ≤ chunk_overlap_sec script_config < chunk_duration_sec script_config ∧
  ∀ i : nat, is_Some (windows script_config 125000 !! i) ↔
             Z.of_nat i * chunk_length_ms script_config < 125000.
Proof.
  assert (0 < chunk_duration_min script_config) as Hmin by (by vm_compute).
  assert (0 ≤ chunk_overlap_sec script_config < chunk_duration_sec script_config)
    as Hov by (split; by vm_compute).
  split; [done|]. split; [done|].
  exact (proj1 (windows_offsets script_config 125000 Hmin Hov)).
Defined.

(** C1 as stated fails on the last window of a 125 s file: the claim puts its
    nominal end at [min (120 + 60) 125 = 125] s, the compile loop keeps start
    times up to [(2 + 1) * 60 = 180] s for it. *)
Lemma nominal_end_not_clamped :
  ¬ (∀ w, w ∈ windows script_config 125000 →
          nominal_end script_config w
          = Z.min (nominal_start w + chunk_length_ms script_config) 125000) ∧
  (λ w, (nominal_start w, nominal_end script_config w,
         read_start 125000 w, read_end 125000 w))
    <$> windows script_config 125000
  ≠ [(0, 60000, 0, 70000); (60000, 120000, 50000, 125000);
     (120000, 125000, 110000, 125000)].
Proof.
  split; [|by vm_compute].
  intros H.
  specialize (H {| w_idx := 2; start_point := 120000;
                   start_ms := 110000; end_ms := 190000 |}).
  assert (180000 = 125000) as Habs; [|lia].
  apply H. vm_compute. do 2 right. left.
Qed.

Section tiling.
Context (cfg : Config).

Lemma windows_length total :
  0 < chunk_duration_min cfg → 0 < total →
  ∃ n : nat, length (windows cfg total) = S n ∧
    Z.of_nat n * chunk_length_ms cfg < total ≤ Z.of_nat (S n) * chunk_length_ms cfg.
Proof.
  intros Hmin Htot.
  destruct (script_lengths_pos cfg Hmin) as [_ Hlen].
  destruct (length (windows cfg total)) as [|n] eqn:Hn.
  - assert (is_Some (windows cfg total !! 0%nat)) as [w Hw].
    { eexists. apply windows_lookup; [done|]. split; [lia|done]. }
    apply lookup_lt_Some in Hw. lia.
  - exists n. split; [done|]. split.
    + destruct (lookup_lt_is_Some_2 (windows cfg total) n) as [w Hw]; [lia|].
      by apply windows_lookup in Hw as [? _].
    + destruct (decide (total ≤ Z.of_nat (S n) * chunk_length_ms cfg)); [done|].
      assert (is_Some (windows cfg total !! S n)) as [w Hw].
      { eexists. apply windows_lookup; [done|]. split; [lia|done]. }
      apply lookup_lt_Some in Hw. lia.
Qed.

Lemma window_ranges total (i : nat) w :
  windows cfg total !! i = Some w →
  w_idx w = Z.of_nat i ∧
  nominal_start w = Z.of_nat i * chunk_length_ms cfg ∧
  nominal_end cfg w = Z.of_nat (S i) * chunk_length_ms cfg.
Proof.
  intros Hw. unfold windows, start_points, py_range in Hw.
  rewrite list_lookup_imap, list_lookup_fmap in Hw.
  destruct (seq _ _ !! i) as [k|] eqn:Hk; simplify_eq/=.
  apply lookup_seq in Hk as [-> _].
  unfold chunk_window, nominal_start, nominal_end, owner_hi, chunk_length_ms.
  destruct (Z.eqb_spec (Z.of_nat i) 0); simpl; lia.
Qed.

Lemma last_window total w :
  0 < chunk_duration_min cfg →
  last (windows cfg total) = Some w →
  total ≤ nominal_end cfg w < total + chunk_length_ms cfg.
Proof.
  intros Hmin Hl.
  destruct (script_lengths_pos cfg Hmin) as [_ Hlen].
  assert (0 < total) as Htot.
  { destruct (windows cfg total) as [|w0 ws] eqn:Hws; [done|].
    assert (windows cfg total !! 0%nat = Some w0) as Hw0 by (by rewrite Hws).
    apply windows_lookup in Hw0 as [? _]; [lia|done]. }
  destruct (windows_length total Hmin Htot) as (n & Hn & Hlo & Hhi).
  rewrite last_lookup, Hn in Hl. simpl in Hl.
  apply window_ranges in Hl as (_ & _ & ->). lia.
Qed.

(** C2 (amended).  For a positive length and chunk duration the nominal ranges
    are laid end to end from [0]: the first starts at [0], each ends where
    the next starts, and the last ends at the first multiple of the chunk
    length that is not below [total] (so at [total] or less than one chunk
    after it).  Every instant of [[0, total)] lies in the nominal range of
    exactly one window. *)
Theorem nominal_ranges_tile total :
  0 < chunk_duration_min cfg → 0 < total →
  (∃ w, windows cfg total !! 0%nat = Some w ∧ nominal_start w = 0) ∧
  (∀ (i : nat) w w',
     windows cfg total !! i = Some w → windows cfg total !! S i = Some w' →
     nominal_end cfg w = nominal_start w') ∧
  (∃ w, last (windows cfg total) = Some w ∧
     total ≤ nominal_end cfg w < total + chunk_length_ms cfg) ∧
  (∀ t, 0 ≤ t < total →
     ∃ w, w ∈ windows cfg total ∧
       nominal_start w ≤ t < nominal_end cfg w ∧
       ∀ w', w' ∈ windows cfg total →
             nominal_start w' ≤ t < nominal_end cfg w' → w' = w).
Proof.
  intros Hmin Htot.
  destruct (script_lengths_pos cfg Hmin) as [Hsec Hlen].
  pose proof (window_ranges total) as Hfields.
  split; [|split; [|split]].
  - eexists. split; [apply windows_lookup; [done|]; split; [lia|done]|].
    unfold chunk_window, nominal_start. simpl. lia.
  - intros i w w' Hw Hw'.
    apply Hfields in Hw as (_ & _ & ->). apply Hfields in Hw' as (_ & -> & _). done.
  - destruct (windows_length total Hmin Htot) as (n & Hn & _).
    destruct (lookup_lt_is_Some_2 (windows cfg total) n) as [w Hw]; [lia|].
    assert (last (windows cfg total) = Some w) as Hl
      by (by rewrite last_lookup, Hn).
    exists w. split; [done|]. by apply last_window.
  - intros t Ht.
    set (i := Z.to_nat (t `div` chunk_length_ms cfg)).
    pose proof (Z.div_mod t (chunk_length_ms cfg) ltac:(lia)) as Hdm.
    pose proof (Z.mod_pos_bound t (chunk_length_ms cfg) Hlen) as Hm.
    assert (0 ≤ t `div` chunk_length_ms cfg) by (apply Z.div_pos; lia).
    assert (Z.of_nat i = t `div` chunk_length_ms cfg) as Hi by lia.
    assert (is_Some (windows cfg total !! i)) as [w Hw].
    { eexists. apply windows_lookup; [done|]. split; [nia|done]. }
    exists w. split; [by eapply list_elem_of_lookup_2|].
    destruct (Hfields _ _ Hw) as (Hidx & Hs & He).
    split; [nia|].
    intros w' [j Hj]%list_elem_of_lookup Hin.
    destruct (Hfields _ _ Hj) as (Hidx' & Hs' & He').
    assert (j = i) as -> by nia. congruence.
Qed.
End tiling.

Lemma nominal_ranges_tile_witness :
  0 < chunk_duration_min script_config ∧ 0 < 125000 ∧
  ∃ w, last (windows script_config 125000) = Some w ∧
       125000 ≤ nominal_end script_config w < 125000 + chunk_length_ms script_config.
Proof.
  split; [by vm_compute|]. split; [lia|].
  apply (nominal_ranges_tile script_config 125000); [by vm_compute|lia].
Defined.

(** C2 as stated fails for a 125 s file: the last nominal range ends at 180 s,
    not at the total length. *)
Lemma last_nominal_end_exceeds_total :
  ¬ (∀ w, last (windows script_config 125000) = Some w →
          nominal_end script_config w = 125000).
Proof.
  intros H.
  specialize (H {| w_idx := 2; start_point := 120000;
                   start_ms := 110000; end_ms := 190000 |} eq_refl).
  by vm_compute in H.
Qed.

(** ** The order of entries and [sorted] *)

Global Instance entry_lt_strict : StrictOrder entry_lt.
Proof. unfold entry_lt. apply _. Qed.

Lemma entry_lt_trichotomy (a b : Entry) : entry_lt a b ∨ a = b ∨ entry_lt b a.
Proof. unfold entry_lt. destruct (trichotomyT lexico a b) as [[?|?]|?]; auto. Qed.

Global Instance entry_le_total : Total entry_le.
Proof.
  intros a b. unfold entry_le.
  destruct (entry_lt_trichotomy a b) as [?|[?|?]]; auto.
Qed.

Global Instance entry_le_trans : Transitive entry_le.
Proof.
  intros a b c [->|Hab] [->|Hbc]; unfold entry_le; auto.
  right. by trans b.
Qed.

Global Instance entry_le_antisymm : AntiSymm (=) entry_le.
Proof.
  intros a b [->|Hab] [?|Hba]; try done.
  destruct (irreflexivity entry_lt a). by trans b.
Qed.

Lemma entry_lt_start (a b : Entry) : entry_lt a b → a.1 ≤ b.1.
Proof. intros [H|[H _]]; [unfold lexico, Z_lexico in H; lia|lia]. Qed.

Lemma entry_lt_of_start (a b : Entry) : a.1 < b.1 → entry_lt a b.
Proof. intros H. by left. Qed.

Lemma entry_lt_same_start (a b : Entry) :
  entry_lt a b → a.1 = b.1 → lexico a.2 b.2.
Proof.
  intros [H|[_ H]] Heq; [|done].
  unfold lexico, Z_lexico in H. lia.
Qed.

Lemma sorted_StronglySorted l : StronglySorted entry_le (sorted l).
Proof. apply StronglySorted_merge_sort; apply _. Qed.

Lemma sorted_Permutation l : sorted l ≡ₚ l.
Proof. apply merge_sort_Permutation. Qed.

Lemma sorted_unique l k :
  StronglySorted entry_le k → k ≡ₚ l → sorted l = k.
Proof.
  intros Hk Hp. apply (StronglySorted_unique entry_le);
    [apply sorted_StronglySorted|done|].
  by rewrite sorted_Permutation.
Qed.

Lemma entry_lt_le_sorted l : StronglySorted entry_lt l → StronglySorted entry_le l.
Proof.
  induction 1 as [|x l _ IH Hx]; constructor; [done|].
  eapply Forall_impl; [done|]. intros y ?. by right.
Qed.

Lemma sorted_id l : StronglySorted entry_lt l → sorted l = l.
Proof. intros H. apply sorted_unique; [by apply entry_lt_le_sorted|done]. Qed.

Section compile.
Context (cfg : Config).
Implicit Types (idx sec : Z) (e : Entry) (l : list Entry)
  (U V : gset (Z * list N)) (pool : list (Z * list Entry)).

Lemma owned_spec idx sec :
  owned cfg idx sec = true ↔ owner_lo cfg idx ≤ sec < owner_hi cfg idx.
Proof.
  unfold owned. rewrite andb_true_iff, !negb_true_iff, Z.ltb_ge, Z.leb_gt. done.
Qed.

(** Ownership ranges of distinct indices are disjoint. *)
Lemma owned_inj idx idx' sec :
  owned cfg idx sec = true → owned cfg idx' sec = true → idx = idx'.
Proof.
  rewrite !owned_spec. unfold owner_lo, owner_hi. intros H H'.
  destruct (Z.lt_trichotomy idx idx') as [?|[?|?]]; [|done|]; nia.
Qed.

Lemma owned_lt idx idx' sec sec' :
  idx < idx' → owned cfg idx sec = true → owned cfg idx' sec' = true →
  sec < sec'.
Proof. rewrite !owned_spec. unfold owner_lo, owner_hi. nia. Qed.

(** The three [continue] tests of the inner loop as one decision. *)
Lemma compile_segments_cons idx U e l :
  compile_segments cfg idx U (e :: l) =
    if decide (e ∈ U ∨ owned cfg idx e.1 = false) then
      compile_segments cfg idx U l
    else
      let r := compile_segments cfg idx ({[ e ]} ∪ U) l in (r.1, e :: r.2).
Proof.
  destruct e as [sec text]. simpl. unfold owned, owner_lo, owner_hi.
  destruct (decide ((sec, text) ∈ U)) as [HU|HU].
  { rewrite decide_True; auto. }
  destruct (sec <? idx * chunk_duration_sec cfg) eqn:Hlo; simpl.
  { rewrite decide_True; auto. }
  destruct ((idx + 1) * chunk_duration_sec cfg <=? sec) eqn:Hhi; simpl.
  { rewrite decide_True; auto. }
  rewrite decide_False; [done|]. intros [?|?]; done.
Qed.

Lemma compile_segments_elem idx U l e :
  e ∈ (compile_segments cfg idx U l).2 ↔
  e ∈ l ∧ owned cfg idx e.1 = true ∧ e ∉ U.
Proof.
  revert U. induction l as [|x l IH]; intros U.
  { simpl. set_solver. }
  rewrite compile_segments_cons. case_decide as Hx.
  - rewrite IH, elem_of_cons. split; [naive_solver|].
    intros ([->|?] & Ho & HU); [|done].
    destruct Hx; [done|congruence].
  - simpl. rewrite !elem_of_cons, IH.
    assert ((x ∉ U) ∧ owned cfg idx x.1 = true) as [HxU Hxo].
    { destruct (owned cfg idx x.1); split; auto. }
    split.
    + intros [->|(? & ? & ?)]; [auto|]. set_solver.
    + intros ([->|?] & ? & ?); [auto|].
      destruct (decide (e = x)) as [->|]; [auto|]. right. set_solver.
Qed.

Lemma compile_segments_unique idx U l :
  (compile_segments cfg idx U l).1
  = U ∪ list_to_set (compile_segments cfg idx U l).2.
Proof.
  revert U. induction l as [|x l IH]; intros U.
  { simpl. set_solver. }
  rewrite compile_segments_cons. case_decide; [done|].
  simpl. rewrite IH. set_solver.
Qed.

Lemma compile_segments_sorted idx U l :
  StronglySorted entry_le l →
  StronglySorted entry_lt (compile_segments cfg idx U l).2.
Proof.
  intros Hl. revert U. induction Hl as [|x l _ IH Hx]; intros U.
  { constructor. }
  rewrite compile_segments_cons. case_decide; [done|].
  simpl. constructor; [done|].
  apply Forall_forall. intros y (Hy & _ & HyU)%compile_segments_elem.
  rewrite Forall_forall in Hx. destruct (Hx y Hy) as [->|?]; [|done].
  set_solver.
Qed.

(** Running the inner loop on the lines it wrote writes them again. *)
Lemma compile_segments_idem idx U l :
  compile_segments cfg idx U (compile_segments cfg idx U l).2
  = compile_segments cfg idx U l.
Proof.
  revert U. induction l as [|x l IH]; intros U; [done|].
  rewrite compile_segments_cons. case_decide as Hx; [done|].
  cbn [snd]. rewrite compile_segments_cons, decide_False by done.
  by rewrite IH.
Qed.

(** The inner loop only consults [unique_entries] on entries it owns. *)
Lemma compile_segments_ext idx U V l :
  (∀ e, owned cfg idx e.1 = true → e ∈ U ↔ e ∈ V) →
  (compile_segments cfg idx U l).2 = (compile_segments cfg idx V l).2.
Proof.
  revert U V. induction l as [|x l IH]; intros U V HUV; [done|].
  rewrite !compile_segments_cons.
  destruct (owned cfg idx x.1) eqn:Hox.
  - destruct (decide (x ∈ U)) as [HxU|HxU].
    + rewrite !decide_True by (left; first [done | by apply HUV]). by apply IH.
    + rewrite !decide_False.
      * simpl. f_equal. apply IH. intros e He.
        rewrite !elem_of_union, HUV by done. done.
      * intros [?%HUV|?]; done.
      * intros [?|?]; done.
  - rewrite !decide_True by auto. by apply IH.
Qed.
End compile.

(** ** The outer compile loop and the chunk loop *)

Section compile_loop.
Context (cfg : Config).
Implicit Types (idx sec : Z) (e : Entry) (l : list Entry)
  (U V : gset (Z * list N)) (pool : list (Z * list Entry)).

Lemma compile_loop_keys U pool : (compile_loop cfg U pool).*1 = pool.*1.
Proof.
  revert U. induction pool as [|[idx l] pool IH]; intros U; [done|].
  simpl. by rewrite IH.
Qed.

Lemma window_lines_elem p e :
  e ∈ window_lines cfg p ↔ e ∈ p.2 ∧ owned cfg p.1 e.1 = true.
Proof.
  unfold window_lines. rewrite compile_segments_elem, sorted_Permutation.
  set_solver.
Qed.

Lemma window_lines_sorted p : StronglySorted entry_lt (window_lines cfg p).
Proof. apply compile_segments_sorted, sorted_StronglySorted. Qed.

(** With distinct keys, [unique_entries] never decides: every item is
    compiled as if the set were empty. *)
Lemma compile_loop_local U pool :
  NoDup pool.*1 →
  (∀ e idx, e ∈ U → idx ∈ pool.*1 → owned cfg idx e.1 = false) →
  compile_loop cfg U pool = (λ p, (p.1, window_lines cfg p)) <$> pool.
Proof.
  revert U. induction pool as [|[idx l] pool IH]; intros U Hnd HU; [done|].
  apply NoDup_cons in Hnd as [Hidx Hnd]. cbn [compile_loop fmap list_fmap].
  assert ((compile_segments cfg idx U (sorted l)).2 = window_lines cfg (idx, l))
    as Hhead.
  { apply compile_segments_ext. intros e He. split; [|set_solver].
    intros HeU. assert (owned cfg idx e.1 = false); [|simpl in He; congruence].
    apply HU; [done|]. simpl. left. }
  f_equal; [by rewrite Hhead|].
  apply IH; [done|]. intros e idx' He Hidx'.
  rewrite compile_segments_unique, elem_of_union in He.
  destruct He as [He|He].
  - apply (HU e); [done|]. simpl. by right.
  - apply elem_of_list_to_set, compile_segments_elem in He as (_ & He & _).
    destruct (owned cfg idx' e.1) eqn:Ho; [|done].
    assert (idx = idx') as -> by eauto using owned_inj. done.
Qed.

Lemma compiled_local pool :
  NoDup pool.*1 → compiled cfg pool = mjoin (window_lines cfg <$> pool).
Proof.
  intros Hnd. unfold compiled. rewrite compile_loop_local by set_solver.
  by rewrite <-list_fmap_compose.
Qed.

Lemma compiled_elem pool e :
  NoDup pool.*1 →
  e ∈ compiled cfg pool ↔
  ∃ idx l, (idx, l) ∈ pool ∧ e ∈ l ∧ owned cfg idx e.1 = true.
Proof.
  intros Hnd. rewrite compiled_local, list_elem_of_join by done. split.
  - intros (ls & He & ([idx l] & -> & Hp)%list_elem_of_fmap).
    apply window_lines_elem in He as [??]. eauto.
  - intros (idx & l & Hp & He & Ho). exists (window_lines cfg (idx, l)).
    split; [by apply window_lines_elem|]. apply list_elem_of_fmap. eauto.
Qed.

Lemma compile_loop_idem U pool :
  compile_loop cfg U (compile_loop cfg U pool) = compile_loop cfg U pool.
Proof.
  revert U. induction pool as [|[idx l] pool IH]; intros U; [done|].
  cbn [compile_loop fst snd].
  rewrite sorted_id by apply compile_segments_sorted, sorted_StronglySorted.
  by rewrite compile_segments_idem, IH.
Qed.

Lemma StronglySorted_lt_NoDup (ks : list Z) : StronglySorted Z.lt ks → NoDup ks.
Proof.
  induction 1 as [|k ks _ IH Hk]; constructor; [|done].
  intros Hin. rewrite Forall_forall in Hk. specialize (Hk _ Hin). lia.
Qed.

(** With keys in ascending order the compiled lines are strictly
    ascending for the order of [(sec, text)] tuples. *)
Lemma compiled_strictly_sorted pool :
  StronglySorted Z.lt pool.*1 → StronglySorted entry_lt (compiled cfg pool).
Proof.
  intros Hs. rewrite compiled_local by by apply StronglySorted_lt_NoDup.
  induction pool as [|[idx l] pool IH]; [constructor|].
  cbn [fmap list_fmap] in *. apply StronglySorted_cons in Hs as [Hidx Hs].
  simpl. apply StronglySorted_app_2; [|apply window_lines_sorted|by apply IH].
  intros x1 x2 [_ H1]%window_lines_elem
    (ls & H2 & ([idx' l'] & -> & Hp)%list_elem_of_fmap)%list_elem_of_join.
  apply window_lines_elem in H2 as [_ H2]. simpl in *.
  apply entry_lt_of_start. eapply owned_lt; [|done..].
  rewrite Forall_forall in Hidx. apply Hidx.
  apply list_elem_of_fmap. by exists (idx', l').
Qed.
End compile_loop.

Section chunk_loop.
Context (cfg : Config) (f : AudioFile).
Implicit Types (d : list (Z * list Entry)) (w : Window).

Lemma dict_append_fresh d idx e :
  idx ∉ d.*1 → dict_append d idx e = d ++ [(idx, [e])].
Proof.
  induction d as [|[k v] d IH]; intros Hk; [done|].
  simpl in *. apply not_elem_of_cons in Hk as [? ?].
  rewrite decide_False by done. by rewrite IH.
Qed.

Lemma dict_append_last d idx v e :
  idx ∉ d.*1 → dict_append (d ++ [(idx, v)]) idx e = d ++ [(idx, v ++ [e])].
Proof.
  induction d as [|[k v'] d IH]; intros Hk; simpl in *.
  { by rewrite decide_True. }
  apply not_elem_of_cons in Hk as [? ?].
  rewrite decide_False by done. by rewrite IH.
Qed.

Lemma foldl_dict_append_last d idx v es :
  idx ∉ d.*1 →
  foldl (λ d e, dict_append d idx e) (d ++ [(idx, v)]) es
  = d ++ [(idx, v ++ es)].
Proof.
  intros Hk. revert v. induction es as [|e es IH]; intros v; simpl.
  { by rewrite app_nil_r. }
  rewrite dict_append_last, IH by done. by rewrite <-app_assoc.
Qed.

Lemma foldl_dict_append d idx es :
  idx ∉ d.*1 →
  foldl (λ d e, dict_append d idx e) d es
  = d ++ match es with [] => [] | _ => [(idx, es)] end.
Proof.
  intros Hk. destruct es as [|e es]; simpl; [by rewrite app_nil_r|].
  by rewrite dict_append_fresh, foldl_dict_append_last.
Qed.

Lemma window_entries_key w p : window_entries f w = Some p → p.1 = w_idx w.
Proof.
  unfold window_entries. destruct (transcribe_chunk f _) as [[|??]|]; naive_solver.
Qed.

Lemma chunk_loop_from d out (ws : list Window) :
  NoDup (w_idx <$> ws) →
  (∀ w, w ∈ ws → w_idx w ∉ d.*1) →
  foldl (chunk_step f) (d, out) ws
  = (d ++ omap (window_entries f) ws, out ++ omap (window_file f) ws).
Proof.
  revert d out. induction ws as [|w ws IH]; intros d out Hnd Hd.
  { simpl. by rewrite !app_nil_r. }
  cbn [fmap list_fmap] in Hnd. apply NoDup_cons in Hnd as [Hw Hnd].
  assert (w_idx w ∉ d.*1) as Hwd by (apply Hd; left).
  cbn [foldl omap list_omap]. unfold chunk_step at 2, window_entries at 1, window_file at 1.
  destruct (transcribe_chunk f (w_idx w)) as [segs|] eqn:Hr.
  - cbn [fst snd]. rewrite foldl_dict_append by done.
    rewrite IH; [|done|].
    + destruct segs as [|s segs]; cbn [fmap list_fmap];
        rewrite <-?app_assoc; done.
    + intros w' Hw'. rewrite fmap_app, elem_of_app. intros [?|Hin].
      * by apply (Hd w'); [right|].
      * destruct segs; simpl in Hin; [by apply elem_of_nil in Hin|].
        apply list_elem_of_singleton in Hin. apply Hw.
        rewrite <-Hin. by apply list_elem_of_fmap_2.
  - apply IH; [done|]. intros w' Hw'. apply Hd. by right.
Qed.

Lemma windows_idx total (i : nat) w :
  windows cfg total !! i = Some w → w_idx w = Z.of_nat i.
Proof.
  unfold windows. rewrite list_lookup_imap.
  destruct (start_points cfg total !! i); intros; simplify_eq/=.
  unfold chunk_window. by destruct (Z.of_nat i =? 0).
Qed.

Lemma windows_idx_seq total :
  w_idx <$> windows cfg total
  = Z.of_nat <$> seq 0 (length (windows cfg total)).
Proof.
  apply list_eq. intros i. rewrite !list_lookup_fmap.
  destruct (windows cfg total !! i) as [w|] eqn:Hw; simpl.
  - rewrite lookup_seq_lt by (by eapply lookup_lt_Some).
    simpl. f_equal. by eapply windows_idx.
  - rewrite lookup_seq_ge; [done|]. by apply lookup_ge_None.
Qed.

Lemma seq_Z_sorted j n : StronglySorted Z.lt (Z.of_nat <$> seq j n).
Proof.
  revert j. induction n as [|n IH]; intros j; [constructor|].
  simpl. constructor; [apply IH|].
  apply Forall_forall. intros x (k & -> & Hk)%list_elem_of_fmap.
  apply elem_of_seq in Hk. lia.
Qed.

Lemma windows_idx_sorted total :
  StronglySorted Z.lt (w_idx <$> windows cfg total).
Proof. rewrite windows_idx_seq. apply seq_Z_sorted. Qed.

Lemma chunk_loop_eq total :
  chunk_loop cfg f total
  = (omap (window_entries f) (windows cfg total),
     omap (window_file f) (windows cfg total)).
Proof.
  unfold chunk_loop. rewrite chunk_loop_from; [done| |set_solver].
  apply StronglySorted_lt_NoDup, windows_idx_sorted.
Qed.

Lemma omap_keys_sorted (ws : list Window) :
  StronglySorted Z.lt (w_idx <$> ws) →
  StronglySorted Z.lt (omap (window_entries f) ws).*1.
Proof.
  induction ws as [|w ws IH]; [constructor|].
  cbn [fmap list_fmap omap list_omap]. intros [Hw Hs]%StronglySorted_cons.
  destruct (window_entries f w) as [p|] eqn:Hp; [|by apply IH].
  cbn [fmap list_fmap]. constructor; [by apply IH|].
  apply window_entries_key in Hp. rewrite Hp.
  apply Forall_forall. intros k ([k' l] & -> & Hin)%list_elem_of_fmap.
  apply list_elem_of_omap in Hin as (w' & Hw' & Hk%window_entries_key).
  simpl in *. subst k'. rewrite Forall_forall in Hw. apply Hw.
  by apply list_elem_of_fmap_2.
Qed.

Lemma chunk_loop_keys_sorted total :
  StronglySorted Z.lt (chunk_loop cfg f total).1.*1.
Proof.
  rewrite chunk_loop_eq. apply omap_keys_sorted, windows_idx_sorted.
Qed.
End chunk_loop.

Section ownership.
Context (cfg : Config).

Lemma owned_nominal total (i : nat) w sec :
  windows cfg total !! i = Some w →
  owned cfg (w_idx w) sec = true ↔
  nominal_start w ≤ sec * 1000 < nominal_end cfg w.
Proof.
  intros (Hi & Hs & He)%window_ranges. rewrite owned_spec, Hs, He.
  unfold owner_lo, owner_hi. rewrite Hi. unfold chunk_length_ms. lia.
Qed.

Lemma pool_lookup f total (i : nat) w segments :
  windows cfg total !! i = Some w →
  transcribe_chunk f (w_idx w) = Some segments →
  segments ≠ [] →
  (w_idx w, to_entry w <$> segments) ∈ (chunk_loop cfg f total).1.
Proof.
  intros Hw Hr Hne. rewrite chunk_loop_eq. cbn [fst].
  apply list_elem_of_omap. exists w. split; [by eapply list_elem_of_lookup_2|].
  unfold window_entries. rewrite Hr. by destruct segments.
Qed.

Lemma pool_elem f total idx l :
  (idx, l) ∈ (chunk_loop cfg f total).1 →
  ∃ (i : nat) w segments,
    windows cfg total !! i = Some w ∧ w_idx w = idx ∧
    transcribe_chunk f idx = Some segments ∧ l = to_entry w <$> segments.
Proof.
  rewrite chunk_loop_eq. cbn [fst].
  intros (w & [i Hw]%list_elem_of_lookup & Hp)%list_elem_of_omap.
  unfold window_entries in Hp.
  destruct (transcribe_chunk f (w_idx w)) as [[|s segs]|] eqn:Hr; simplify_eq.
  exists i, w, (s :: segs). eauto.
Qed.

Lemma pool_NoDup f total : NoDup (chunk_loop cfg f total).1.*1.
Proof. apply StronglySorted_lt_NoDup, chunk_loop_keys_sorted. Qed.

(** C3 (amended).  For a window [w] whose transcription returned [segments]
    and a segment [s] of them, with [g] the entry computed for [s]: the lines
    the compile loop writes under [w]'s index contain [g] exactly when
    [nominal_start w ≤ g.start < nominal_end w] (times in ms), and then [g] is
    in the compiled transcript.  Both limits hold for every window, the first
    and the last included: the lower limit of the first window is [0] and the
    upper limit of the last window is not below the length of the audio, so
    neither rejects a start time inside the audio, but a start before [0] or
    at or after the last window's limit is dropped. *)
Theorem ownership_rule f total (i j : nat) w segments s :
  0 < chunk_duration_min cfg →
  windows cfg total !! i = Some w →
  transcribe_chunk f (w_idx w) = Some segments →
  segments !! j = Some s →
  let g := to_entry w s in
  let pool := (chunk_loop cfg f total).1 in
  ((∃ lines, (w_idx w, lines) ∈ compile_loop cfg ∅ pool ∧ g ∈ lines) ↔
     nominal_start w ≤ g.1 * 1000 < nominal_end cfg w) ∧
  (nominal_start w ≤ g.1 * 1000 < nominal_end cfg w → g ∈ compiled cfg pool) ∧
  (∀ w0, windows cfg total !! 0%nat = Some w0 → nominal_start w0 = 0) ∧
  (∀ wl, last (windows cfg total) = Some wl → total ≤ nominal_end cfg wl).
Proof.
  intros Hmin Hw Hr Hs g pool.
  assert (segments ≠ []) as Hne by (by destruct segments).
  assert (g ∈ to_entry w <$> segments) as Hg.
  { apply list_elem_of_fmap_2. by eapply list_elem_of_lookup_2. }
  pose proof (pool_lookup f total i w segments Hw Hr Hne) as Hp.
  fold pool in Hp.
  rewrite <-(owned_nominal total i w) by done.
  split; [|split; [|split]].
  - unfold pool. rewrite compile_loop_local by (apply pool_NoDup || set_solver).
    split.
    + intros (lines & ([idx l] & [= <- ->] & _)%list_elem_of_fmap & Hin).
      by apply window_lines_elem in Hin as [_ ?].
    + intros Ho. exists (window_lines cfg (w_idx w, to_entry w <$> segments)).
      split; [|by apply window_lines_elem].
      apply list_elem_of_fmap. by eexists (_, _).
  - intros Ho. apply compiled_elem; [apply pool_NoDup|]. eauto.
  - intros w0 (_ & Hs0 & _)%window_ranges. lia.
  - intros wl Hl. by apply last_window.
Qed.
End ownership.

Lemma ownership_rule_witness :
  let w := {| w_idx := 0; start_point := 0; start_ms := 0; end_ms := 70000 |} in
  let g := to_entry w {| seg_start := 121 # 2; seg_text := py_str " hello" |} in
  let pool := (chunk_loop script_config hello_file 125000).1 in
  0 < chunk_duration_min script_config ∧
  windows script_config 125000 !! 0%nat = Some w ∧
  g = (60, py_str "hello") ∧
  ((∃ lines, (0, lines) ∈ compile_loop script_config ∅ pool ∧ g ∈ lines) ↔
     nominal_start w ≤ g.1 * 1000 < nominal_end script_config w).
Proof.
  intros w g pool.
  assert (0 < chunk_duration_min script_config) as Hmin by (by vm_compute).
  split; [done|]. split; [reflexivity|]. split; [reflexivity|].
  exact (proj1 (ownership_rule script_config hello_file 125000 0 0 w
                  [ {| seg_start := 121 # 2; seg_text := py_str " hello" |} ]
                  {| seg_start := 121 # 2; seg_text := py_str " hello" |}
                  Hmin eq_refl eq_refl eq_refl)).
Defined.

Lemma StronglySorted_NoDup_lt (l : list Entry) :
  StronglySorted entry_lt l → NoDup l.
Proof.
  induction 1 as [|x l _ IH Hx]; constructor; [|done].
  intros Hin. rewrite Forall_forall in Hx.
  by destruct (irreflexivity entry_lt x (Hx _ Hin)).
Qed.

Lemma StronglySorted_lookup_lt (l : list Entry) (i j : nat) a b :
  StronglySorted entry_lt l → (i < j)%nat →
  l !! i = Some a → l !! j = Some b → entry_lt a b.
Proof.
  intros Hl. revert i j. induction Hl as [|x l _ IH Hx]; intros i j Hij Ha Hb.
  { by rewrite lookup_nil in Ha. }
  destruct j as [|j]; [lia|]. destruct i as [|i]; simplify_eq/=.
  - rewrite Forall_forall in Hx. apply Hx. by eapply list_elem_of_lookup_2.
  - apply (IH i j); [lia|done..].
Qed.

Section transcript.
Context (cfg : Config).

(** C4.  Whatever the model returns for the chunks of a file, the compiled
    transcript is in non-decreasing order of start time and no [(start,
    text)] pair occurs twice in it.  When the first two windows of a 125 s
    file both report the word at second 60 the transcript is the single line
    [(60, "hello")]. *)
Theorem compiled_sorted_unique f total :
  let T := compiled cfg (chunk_loop cfg f total).1 in
  StronglySorted (λ a b : Entry, a.1 ≤ b.1) T ∧
  NoDup T ∧
  compiled script_config (chunk_loop script_config hello_file 125000).1
  = [(60, py_str "hello")].
Proof.
  intros T.
  assert (StronglySorted entry_lt T) as HT
    by apply compiled_strictly_sorted, chunk_loop_keys_sorted.
  split; [|split; [by apply StronglySorted_NoDup_lt|by vm_compute]].
  clear -HT. induction HT as [|x l _ IH Hx]; constructor; [done|].
  eapply Forall_impl; [done|]. intros y ?. by apply entry_lt_start.
Qed.

(** C5.  Running the compile loop on the lines it wrote, kept under the index
    they were written for, writes the same lines again; so the transcript
    compiled from them is the transcript compiled from the pool.  Each line
    sits under the one index whose range holds its start time. *)
Theorem reconcile_idempotent (pool : list (Z * list Entry)) :
  let once := compile_loop cfg ∅ pool in
  compile_loop cfg ∅ once = once ∧
  compiled cfg once = compiled cfg pool ∧
  (∀ idx lines e, (idx, lines) ∈ once → e ∈ lines → owned cfg idx e.1 = true).
Proof.
  intros once. split; [apply compile_loop_idem|split].
  - unfold compiled. fold once. f_equal. f_equal. apply compile_loop_idem.
  - assert (∀ U (p : list (Z * list Entry)) idx lines e,
              (idx, lines) ∈ compile_loop cfg U p → e ∈ lines →
              owned cfg idx e.1 = true) as Hgen; [|apply Hgen].
    intros U p. revert U. induction p as [|[k l] p IH]; intros U idx lines e.
    { simpl. by intros ?%elem_of_nil. }
    cbn [compile_loop]. rewrite elem_of_cons. intros [[= -> ->]|Hin] He.
    + by apply compile_segments_elem in He as (_ & ? & _).
    + by eapply IH.
Qed.

(** C7 (amended).  Two lines of the compiled transcript with the same start
    time appear in ascending order of their text (code point by code point),
    whatever the order in which the model emitted them. *)
Theorem equal_start_text_order f total (i j : nat) (a b : Entry) :
  let T := compiled cfg (chunk_loop cfg f total).1 in
  (i < j)%nat → T !! i = Some a → T !! j = Some b → a.1 = b.1 →
  lexico a.2 b.2.
Proof.
  intros T Hij Ha Hb Heq. apply entry_lt_same_start; [|done].
  eapply (StronglySorted_lookup_lt T i j); [|done..].
  apply compiled_strictly_sorted, chunk_loop_keys_sorted.
Qed.

(** C10.  In a pool with distinct keys, lines written for two different
    indices never have the same start time; and the loop writes, for every
    item, exactly what it would write for that item alone starting from an
    empty [unique_entries]: the set never drops an entry because of a line
    written for another window. *)
Theorem dedup_within_window (pool : list (Z * list Entry)) :
  NoDup pool.*1 →
  (∀ idx1 idx2 lines1 lines2 e1 e2,
     (idx1, lines1) ∈ compile_loop cfg ∅ pool →
     (idx2, lines2) ∈ compile_loop cfg ∅ pool →
     idx1 ≠ idx2 → e1 ∈ lines1 → e2 ∈ lines2 → e1.1 ≠ e2.1) ∧
  compile_loop cfg ∅ pool = (λ p, (p.1, window_lines cfg p)) <$> pool.
Proof.
  intros Hnd.
  assert (compile_loop cfg ∅ pool = (λ p, (p.1, window_lines cfg p)) <$> pool)
    as Heq by (apply compile_loop_local; set_solver).
  split; [|done]. rewrite Heq.
  intros idx1 idx2 lines1 lines2 e1 e2
    ([k1 l1] & [= -> ->] & _)%list_elem_of_fmap
    ([k2 l2] & [= -> ->] & _)%list_elem_of_fmap Hne
    [_ H1]%window_lines_elem [_ H2]%window_lines_elem Hsec.
  simpl in *. rewrite Hsec in H1. apply Hne. by eapply owned_inj.
Qed.


(** C9 (amended).  When [AudioSegment.from_file] raises on an audio file, in
    either variant of the script, nothing catches the exception: what was
    written for the files before it stays, and the script ends there without
    processing that file or any file after it. *)
Theorem decode_failure_uncaught model_name before f after :
  (script model_name cfg before).2 = Finished →
  suffix_lower f ∈ audio_extensions →
  from_file f = None →
  script model_name cfg (before ++ f :: after)
  = ((script model_name cfg before).1, Uncaught).
Proof.
  unfold script. intros Hfin Hext Hdec.
  destruct (use_chunks model_name).
  - induction before as [|g before IH]; simpl in *.
    { by rewrite bool_decide_eq_true_2, Hdec. }
    case_bool_decide; [|by apply IH].
    destruct (from_file g); [|done]. simpl in *. by rewrite IH.
  - induction before as [|g before IH]; simpl in *.
    { by rewrite bool_decide_eq_true_2, Hdec. }
    case_bool_decide; [|by apply IH].
    destruct (from_file g); [|done].
    destruct (transcribe_file g); simpl in *; by rewrite IH.
Qed.
End transcript.

Lemma dedup_within_window_witness :
  NoDup [(0, [(60, py_str "hello")]); (1, [(60, py_str "hello")])].*1 ∧
  compile_loop script_config ∅
    [(0, [(60, py_str "hello")]); (1, [(60, py_str "hello")])]
  = (λ p, (p.1, window_lines script_config p))
      <$> [(0, [(60, py_str "hello")]); (1, [(60, py_str "hello")])].
Proof.
  assert (NoDup [(0, [(60, py_str "hello")]); (1, [(60, py_str "hello")])].*1)
    as Hnd by (apply (bool_decide_unpack _); by vm_compute).
  split; [done|].
  by apply (dedup_within_window script_config _ Hnd).
Defined.

Lemma equal_start_text_order_witness :
  lexico (py_str "a") (py_str "b").
Proof.
  apply (equal_start_text_order script_config tie_file 125000 0 1
           (5, py_str "a") (5, py_str "b")); [lia|reflexivity..].
Defined.

(** C7 as stated fails: a window that emits ["b"] and then ["a"] in second 5
    gets them compiled as ["a"], ["b"]. *)
Lemma equal_start_not_emission_order :
  let emitted := [(5, py_str "b"); (5, py_str "a")] in
  let T := compiled script_config (chunk_loop script_config tie_file 125000).1 in
  (chunk_loop script_config tie_file 125000).1 = [(0, emitted)] ∧
  T = [(5, py_str "a"); (5, py_str "b")] ∧
  ¬ (∀ (i j i' j' : nat) (a b : Entry),
       (i < j)%nat → emitted !! i = Some a → emitted !! j = Some b →
       a.1 = b.1 → T !! i' = Some a → T !! j' = Some b → (i' < j')%nat).
Proof.
  intros emitted T. split; [by vm_compute|]. split; [by vm_compute|].
  intros H.
  specialize (H 0%nat 1%nat 1%nat 0%nat (5, py_str "b") (5, py_str "a")).
  assert (1 < 0)%nat; [|lia].
  apply H; [lia|reflexivity..].
Qed.


(** C9 as stated fails: a file that does not decode, first in the scan, ends
    the script before the next file is touched; the result differs from the
    one of the scan without that file. *)
Lemma decode_failure_stops_batch :
  script "large" script_config [bad_file; hello_file] = ([], Uncaught) ∧
  script "base" script_config [bad_file; hello_file] = ([], Uncaught) ∧
  script "large" script_config [bad_file; hello_file]
    ≠ script "large" script_config [hello_file] ∧
  script "base" script_config [bad_file; hello_file]
    ≠ script "base" script_config [hello_file].
Proof. repeat split; by vm_compute. Qed.

Lemma decode_failure_uncaught_witness :
  (script "large" script_config [hello_file]).2 = Finished ∧
  from_file bad_file = None ∧
  script "large" script_config ([hello_file] ++ bad_file :: [gap_file])
  = ((script "large" script_config [hello_file]).1, Uncaught).
Proof.
  split; [reflexivity|]. split; [reflexivity|].
  apply (decode_failure_uncaught script_config "large" [hello_file] bad_file [gap_file]);
    [reflexivity| |reflexivity].
  apply (bool_decide_unpack _). by vm_compute.
Defined.

(** ** [strip] *)

Lemma lstrip_spec (s : list N) :
  ∃ l, s = l ++ lstrip s ∧ Forall (λ c, is_space c = true) l ∧
       ∀ c, head (lstrip s) = Some c → is_space c = false.
Proof.
  induction s as [|c s (l & Hs & Hl & Hh)]; simpl.
  { exists []. by repeat split. }
  destruct (is_space c) eqn:Hc.
  - exists (c :: l). split; [by rewrite Hs at 1|]. split; [by constructor|done].
  - exists []. repeat split; [constructor|]. simpl. by intros ? [= <-].
Qed.

Lemma rstrip_spec (s : list N) :
  ∃ r, s = rstrip s ++ r ∧ Forall (λ c, is_space c = true) r ∧
       ∀ c, last (rstrip s) = Some c → is_space c = false.
Proof.
  destruct (lstrip_spec (reverse s)) as (l & Hs & Hl & Hh).
  exists (reverse l). unfold rstrip. split; [|split].
  - rewrite <-reverse_app, <-Hs. by rewrite reverse_involutive.
  - by apply Forall_reverse.
  - intros c. rewrite last_reverse. apply Hh.
Qed.

Lemma strip_spec (s : list N) :
  ∃ l r, s = l ++ strip s ++ r ∧
    Forall (λ c, is_space c = true) l ∧ Forall (λ c, is_space c = true) r ∧
    (∀ c, head (strip s) = Some c → is_space c = false) ∧
    (∀ c, last (strip s) = Some c → is_space c = false).
Proof.
  destruct (lstrip_spec s) as (l & Hs & Hl & Hh).
  destruct (rstrip_spec (lstrip s)) as (r & Hr & Hrs & Hlast).
  exists l, r. unfold strip. repeat split; try done.
  - by rewrite <-Hr.
  - intros c Hc. apply Hh. rewrite Hr.
    by destruct (rstrip (lstrip s)); simplify_eq/=.
Qed.

(** ** [int] *)

Lemma int_floor (x : Q) :
  (0 <= x)%Q → (inject_Z (int x) <= x)%Q ∧ (x < inject_Z (int x) + 1)%Q.
Proof.
  destruct x as [a b]. unfold Qle, Qlt, int, inject_Z, Qplus. simpl.
  intros Ha. assert (0 ≤ a) by lia.
  rewrite Z.quot_div_nonneg by lia.
  pose proof (Z.div_mod a (Z.pos b) ltac:(lia)).
  pose proof (Z.mod_pos_bound a (Z.pos b) ltac:(lia)).
  nia.
Qed.

Lemma int_add_seconds (k : Z) (x : Q) :
  0 ≤ k → (0 <= x)%Q → int ((1000 * k # 1000) + x) = int x + k.
Proof.
  destruct x as [a b]. unfold Qle, int, Qplus. simpl.
  intros Hk Ha. assert (0 ≤ a) by lia.
  rewrite !Z.quot_div_nonneg by nia.
  replace (1000 * k * Z.pos b + a * 1000) with (1000 * (k * Z.pos b + a)) by lia.
  replace (Z.pos (1000 * b)) with (1000 * Z.pos b) by lia.
  rewrite Z.div_mul_cancel_l by lia.
  rewrite Z.div_add_l by lia. lia.
Qed.

Section timeline.
Context (cfg : Config).

(** The requested slice start of a window is a whole number of seconds,
    is not negative, and is where the slice really starts. *)
Lemma window_start_ms total (i : nat) w :
  0 < chunk_duration_min cfg →
  0 ≤ chunk_overlap_sec cfg < chunk_duration_sec cfg →
  windows cfg total !! i = Some w →
  ∃ k, 0 ≤ k ∧ start_ms w = 1000 * k ∧ read_start total w = start_ms w.
Proof.
  intros Hmin Hov Hw. apply windows_lookup in Hw as [Hlt ->]; [|done].
  unfold chunk_window, read_start, slice_extent, parse_position.
  destruct (Z.eqb_spec (Z.of_nat i) 0) as [Hi|Hi]; simpl.
  - exists 0. split; [done|]. split; [done|].
    destruct (Z.ltb_spec (0 `min` total) 0); lia.
  - exists (Z.of_nat i * chunk_duration_sec cfg - chunk_overlap_sec cfg).
    unfold chunk_length_ms, overlap_ms in *.
    split; [nia|]. split; [lia|].
    match goal with |- context [if ?a <? ?b then _ else _] =>
      destruct (Z.ltb_spec a b) end; nia.
Qed.

(** C6.  For a window [w] of a file and the [j]-th segment [s] its
    transcription returned, with a start that is not negative: the [j]-th
    entry stored for [w] (in [all_segments] and in the chunk transcript) has
    as start the whole number of seconds in [read_start w + s.start], that
    is the largest integer not above it, and as text the segment's text
    without its leading and trailing whitespace. *)
Theorem global_start_truncated f total (i j : nat) w segments s :
  0 < chunk_duration_min cfg →
  0 ≤ chunk_overlap_sec cfg < chunk_duration_sec cfg →
  windows cfg total !! i = Some w →
  transcribe_chunk f (w_idx w) = Some segments →
  segments !! j = Some s →
  (0 <= seg_start s)%Q →
  let t := ((read_start total w # 1000) + seg_start s)%Q in
  ∃ lines g,
    (w_idx w, lines) ∈ (chunk_loop cfg f total).1 ∧
    (ChunkText (stem f) (w_idx w + 1), lines) ∈ (chunk_loop cfg f total).2 ∧
    lines !! j = Some g ∧
    g.1 = int t ∧
    (inject_Z g.1 <= t)%Q ∧ (t < inject_Z g.1 + 1)%Q ∧
    g.2 = strip (seg_text s) ∧
    ∃ l r, seg_text s = l ++ g.2 ++ r ∧
      Forall (λ c, is_space c = true) l ∧ Forall (λ c, is_space c = true) r ∧
      (∀ c, head g.2 = Some c → is_space c = false) ∧
      (∀ c, last g.2 = Some c → is_space c = false).
Proof.
  intros Hmin Hov Hw Hr Hs Hpos t.
  assert (segments ≠ []) as Hne by (by destruct segments).
  exists (to_entry w <$> segments), (to_entry w s).
  destruct (window_start_ms total i w Hmin Hov Hw) as (k & Hk & Hms & Hrs).
  assert ((to_entry w s).1 = int t) as Hint.
  { unfold t, to_entry. rewrite Hrs, Hms. cbn [fst].
    rewrite int_add_seconds by done.
    by rewrite Z.mul_comm, Z.div_mul by lia. }
  split; [by eapply pool_lookup|]. split.
  { rewrite chunk_loop_eq. cbn [snd]. apply list_elem_of_omap.
    exists w. split; [by eapply list_elem_of_lookup_2|].
    unfold window_file. by rewrite Hr. }
  split; [by rewrite list_lookup_fmap, Hs|]. split; [done|].
  assert (0 <= t)%Q as Ht.
  { unfold t. rewrite Hrs, Hms. destruct (seg_start s) as [a b].
    unfold Qle, Qplus in *. simpl in *. nia. }
  rewrite Hint. destruct (int_floor t Ht) as [? ?].
  split; [done|]. split; [done|]. split; [done|]. apply strip_spec.
Qed.
End timeline.

Lemma global_start_truncated_witness :
  ∃ lines g,
    (1, lines) ∈ (chunk_loop script_config hello_file 125000).1 ∧
    (ChunkText "hello" 2, lines) ∈ (chunk_loop script_config hello_file 125000).2 ∧
    lines !! 0%nat = Some g ∧
    g.1 = int ((50000 # 1000) + (41 # 4)) ∧
    (inject_Z g.1 <= (50000 # 1000) + (41 # 4))%Q ∧
    ((50000 # 1000) + (41 # 4) < inject_Z g.1 + 1)%Q ∧
    g.2 = strip (py_str "hello ") ∧
    ∃ l r, py_str "hello " = l ++ g.2 ++ r ∧
      Forall (λ c, is_space c = true) l ∧ Forall (λ c, is_space c = true) r ∧
      (∀ c, head g.2 = Some c → is_space c = false) ∧
      (∀ c, last g.2 = Some c → is_space c = false).
Proof.
  apply (global_start_truncated script_config hello_file 125000 1 0
           {| w_idx := 1; start_point := 60000; start_ms := 50000; end_ms := 130000 |}
           [ {| seg_start := 41 # 4; seg_text := py_str "hello " |} ]
           {| seg_start := 41 # 4; seg_text := py_str "hello " |});
    [by vm_compute|split; by vm_compute|reflexivity|reflexivity|reflexivity|by vm_compute].
Defined.

(** * Further properties of the script *)

(** ** Decimal numerals and the text of a line *)

Lemma chars_app (s1 s2 : string) :
  list_ascii_of_string (s1 +:+ s2)
  = list_ascii_of_string s1 ++ list_ascii_of_string s2.
Proof. induction s1 as [|a s1 IH]; simpl; [done|by rewrite IH]. Qed.

Lemma chars_inj (s1 s2 : string) :
  list_ascii_of_string s1 = list_ascii_of_string s2 → s1 = s2.
Proof.
  intros H. rewrite <-(string_of_list_ascii_of_string s1),
    <-(string_of_list_ascii_of_string s2). by rewrite H.
Qed.

Lemma chars_length (s : string) :
  length (list_ascii_of_string s) = String.length s.
Proof. induction s; simpl; [done|by f_equal]. Qed.

Lemma py_str_app (s1 s2 : string) : py_str (s1 +:+ s2) = py_str s1 ++ py_str s2.
Proof. unfold py_str. by rewrite chars_app, fmap_app. Qed.

Lemma py_str_inj (s1 s2 : string) : py_str s1 = py_str s2 → s1 = s2.
Proof.
  unfold py_str. intros H. apply chars_inj.
  revert H. generalize (list_ascii_of_string s1) (list_ascii_of_string s2).
  intros l1. induction l1 as [|a l1 IH]; intros [|b l2] H; simplify_eq/=; [done|].
  f_equal; [|by apply IH].
  rewrite <-(ascii_N_embedding a), <-(ascii_N_embedding b). by f_equal.
Qed.

Lemma pretty_N_char_digit (x : N) : is_digit (pretty_N_char x).
Proof. unfold pretty_N_char, is_digit. repeat case_match; by vm_compute. Qed.

Lemma pretty_N_go_digits (x : N) (s : string) :
  Forall is_digit (list_ascii_of_string s) →
  Forall is_digit (list_ascii_of_string (pretty_N_go x s)).
Proof.
  revert s. induction (N.lt_wf_0 x) as [x _ IH]; intros s Hs.
  destruct (decide (x = 0)%N) as [->|Hx]; [by rewrite pretty_N_go_0|].
  rewrite pretty_N_go_step by lia. apply IH.
  - apply N.div_lt; lia.
  - simpl. constructor; [apply pretty_N_char_digit|done].
Qed.

Lemma pretty_N_digits (x : N) :
  Forall is_digit (list_ascii_of_string (pretty x)).
Proof.
  unfold pretty, pretty_N. case_decide.
  - simpl. constructor; [by vm_compute|constructor].
  - apply pretty_N_go_digits. constructor.
Qed.

Lemma pretty_N_go_head (x : N) (s : string) :
  (0 < x)%N →
  ∃ c r, pretty_N_go x s = String c r ∧ c ≠ "0"%char ∧ is_digit c.
Proof.
  revert s. induction (N.lt_wf_0 x) as [x _ IH]; intros s Hx.
  rewrite pretty_N_go_step by done.
  destruct (decide (x `div` 10 = 0)%N) as [Hd|Hd].
  - rewrite Hd, pretty_N_go_0. eexists _, _. split; [done|].
    split; [|apply pretty_N_char_digit].
    assert (x < 10)%N by (by apply (N.div_small_iff x 10) in Hd).
    rewrite N.mod_small by done.
    assert (x = 1 ∨ x = 2 ∨ x = 3 ∨ x = 4 ∨ x = 5 ∨ x = 6
            ∨ x = 7 ∨ x = 8 ∨ x = 9)%N by lia.
    naive_solver.
  - apply IH; [apply N.div_lt; lia|by apply N.neq_0_lt_0].
Qed.

(** What a numeral of an integer looks like: digits, after a sign when it
    is negative; no leading zero unless it is ["0"]. *)
Lemma pretty_Z_nonneg (n : Z) :
  0 ≤ n → pretty n = pretty (Z.to_N n).
Proof. by destruct n. Qed.

Lemma pretty_Z_chars (n : Z) :
  Forall (λ a, is_digit a ∨ a = "-"%char) (list_ascii_of_string (pretty n)).
Proof.
  destruct n as [|p|p]; unfold pretty, pretty_Z.
  - simpl. constructor; [left; by vm_compute|constructor].
  - eapply Forall_impl; [apply (pretty_N_digits (N.pos p))|]. by left.
  - rewrite chars_app. apply Forall_app. split.
    + simpl. constructor; [by right|constructor].
    + eapply Forall_impl; [apply (pretty_N_digits (N.pos p))|]. by left.
Qed.

Lemma pretty_Z_digits (n : Z) :
  0 ≤ n → Forall is_digit (list_ascii_of_string (pretty n)).
Proof. intros Hn. rewrite pretty_Z_nonneg by done. apply pretty_N_digits. Qed.

Lemma pretty_Z_head (n : Z) :
  n ≠ 0 → ∃ c r, pretty n = String c r ∧ c ≠ "0"%char.
Proof.
  destruct n as [|p|p]; intros Hn; [done| |].
  - unfold pretty, pretty_Z, pretty, pretty_positive, pretty, pretty_N.
    rewrite decide_False by done.
    destruct (pretty_N_go_head (N.pos p) "") as (c & r & -> & ? & _); [lia|eauto].
  - unfold pretty, pretty_Z. eexists _, _. split; [done|]. done.
Qed.

Lemma pretty_digit (n : Z) :
  0 ≤ n < 10 → pretty n = String (pretty_N_char (Z.to_N n)) "".
Proof.
  intros Hn.
  assert (n = 0 ∨ n = 1 ∨ n = 2 ∨ n = 3 ∨ n = 4 ∨ n = 5 ∨ n = 6
          ∨ n = 7 ∨ n = 8 ∨ n = 9) by lia.
  naive_solver.
Qed.

Lemma pretty_two_digits (n : Z) :
  10 ≤ n < 100 →
  pretty n = String (pretty_N_char (Z.to_N (n `div` 10)))
               (String (pretty_N_char (Z.to_N (n `mod` 10))) "").
Proof.
  intros Hn. rewrite pretty_Z_nonneg by lia.
  unfold pretty, pretty_N. rewrite decide_False by lia.
  rewrite pretty_N_go_step by lia.
  assert (Z.to_N n `div` 10 = Z.to_N (n `div` 10))%N as Hd.
  { symmetry. apply (Z2N.inj_div n 10); lia. }
  assert (Z.to_N n `mod` 10 = Z.to_N (n `mod` 10))%N as Hm.
  { symmetry. apply (Z2N.inj_mod n 10); lia. }
  rewrite Hd, Hm.
  assert (0 < n `div` 10 < 10) as Hq.
  { split; [apply Z.div_str_pos; lia|apply Z.div_lt_upper_bound; lia]. }
  rewrite pretty_N_go_step by lia.
  assert (Z.to_N (n `div` 10) `div` 10 = 0)%N as ->.
  { apply N.div_small. lia. }
  rewrite pretty_N_go_0. by rewrite N.mod_small by lia.
Qed.

Lemma fmt_02d_length (n : Z) : 0 ≤ n < 100 → String.length (fmt_02d n) = 2%nat.
Proof.
  intros Hn. unfold fmt_02d.
  destruct (decide (n < 10)).
  - by rewrite pretty_digit by lia.
  - by rewrite pretty_two_digits by lia.
Qed.

Global Instance fmt_02d_inj : Inj (=) (=) fmt_02d.
Proof.
  assert (∀ a b : Z, (String.length (pretty a) <? 2)%nat = true →
                 (String.length (pretty b) <? 2)%nat = false →
                 "0" +:+ pretty a ≠ pretty b) as Hmix.
  { intros a b Ha Hb Heq.
    destruct (decide (b = 0)) as [->|Hb0]; [done|].
    destruct (pretty_Z_head b Hb0) as (c & r & Hc & Hne).
    rewrite Hc in Heq.
    change ("0" +:+ pretty a) with (String "0" (pretty a)) in Heq.
    injection Heq as Hc0 _. by symmetry in Hc0. }
  intros a b. unfold fmt_02d.
  destruct (String.length (pretty a) <? 2)%nat eqn:Ha,
           (String.length (pretty b) <? 2)%nat eqn:Hb; intros Heq.
  - apply (inj pretty). by simplify_eq/=.
  - by destruct (Hmix a b).
  - by destruct (Hmix b a).
  - by apply (inj pretty).
Qed.

Lemma split_first {A} (x : A) (l1 r1 l2 r2 : list A) :
  x ∉ l1 → x ∉ l2 → l1 ++ x :: r1 = l2 ++ x :: r2 → l1 = l2 ∧ r1 = r2.
Proof.
  revert l2. induction l1 as [|a l1 IH]; intros [|b l2] H1 H2 Heq;
    simplify_eq/=.
  - done.
  - by destruct H2; left.
  - by destruct H1; left.
  - apply not_elem_of_cons in H1 as [? ?]. apply not_elem_of_cons in H2 as [? ?].
    destruct (IH l2) as [-> ->]; done.
Qed.

Ltac ts_literal :=
  simpl;
  repeat (apply Forall_cons; split; [right; set_solver|]);
  by apply Forall_nil.

Lemma app_assoc_str (s1 s2 s3 : string) : (s1 +:+ s2) +:+ s3 = s1 +:+ s2 +:+ s3.
Proof. apply chars_inj. by rewrite !chars_app, app_assoc. Qed.

Lemma timestamp_Some seconds ts :
  timestamp seconds = Some ts →
  ∃ days hh mm ss,
    seconds = 86400 * days + 3600 * hh + 60 * mm + ss ∧
    Z.abs days ≤ 999999999 ∧ (0 ≤ hh < 24) ∧ (0 ≤ mm < 60) ∧ (0 ≤ ss < 60) ∧
    ts = day_part days +:+ clock hh mm ss.
Proof.
  unfold timestamp. case_decide as Hd; [|done]. intros [= <-].
  set (days := seconds `div` 86400) in *.
  set (s := seconds `mod` 86400).
  exists days, ((s `div` 60) `div` 60), ((s `div` 60) `mod` 60), (s `mod` 60).
  pose proof (Z.div_mod seconds 86400 ltac:(done)).
  pose proof (Z.mod_pos_bound seconds 86400 ltac:(done)).
  pose proof (Z.div_mod s 60 ltac:(done)).
  pose proof (Z.mod_pos_bound s 60 ltac:(done)).
  pose proof (Z.div_mod (s `div` 60) 60 ltac:(done)).
  pose proof (Z.mod_pos_bound (s `div` 60) 60 ltac:(done)).
  fold days s in H, H0.
  split; [lia|]. split; [done|]. split; [lia|]. split; [lia|]. split; [lia|].
  done.
Qed.

Lemma clock_chars hh mm ss :
  0 ≤ mm < 60 → 0 ≤ ss < 60 →
  ∃ tl, list_ascii_of_string (clock hh mm ss)
        = list_ascii_of_string (pretty hh) ++ tl ∧
        length tl = 6%nat ∧
        tl = ":"%char :: list_ascii_of_string (fmt_02d mm)
               ++ ":"%char :: list_ascii_of_string (fmt_02d ss).
Proof.
  intros Hm Hs.
  exists (":"%char :: list_ascii_of_string (fmt_02d mm)
            ++ ":"%char :: list_ascii_of_string (fmt_02d ss)).
  split; [|split; [|done]].
  - unfold clock. rewrite !chars_app. done.
  - simpl. rewrite length_app. simpl.
    rewrite !chars_length, !fmt_02d_length by lia. done.
Qed.

Lemma fmt_02d_digits n :
  0 ≤ n → Forall is_digit (list_ascii_of_string (fmt_02d n)).
Proof.
  intros Hn. unfold fmt_02d. case_match.
  - change ("0" +:+ pretty n) with (String "0" (pretty n)). simpl.
    constructor; [by vm_compute|by apply pretty_Z_digits].
  - by apply pretty_Z_digits.
Qed.

Lemma space_not_digit : ¬ is_digit " "%char.
Proof. intros [H _]. by apply H. Qed.

Lemma day_part_chars days :
  days ≠ 0 →
  ∃ r, list_ascii_of_string (day_part days)
       = list_ascii_of_string (pretty days) ++ " "%char :: r ∧
       (" "%char ∉ list_ascii_of_string (pretty days)) ∧
       Forall is_ts_char (list_ascii_of_string (day_part days)).
Proof.
  intros Hd. unfold day_part. rewrite decide_False by done.
  exists (list_ascii_of_string
            ("day" +:+ (if decide (Z.abs days = 1) then "" else "s") +:+ ", ")).
  split; [|split].
  - rewrite chars_app. f_equal.
  - intros Hin. pose proof (pretty_Z_chars days) as Hc.
    rewrite Forall_forall in Hc. destruct (Hc _ Hin) as [?|?]; [|done].
    by apply space_not_digit.
  - rewrite !chars_app, !Forall_app. split; [|split; [|split]].
    + eapply Forall_impl; [apply pretty_Z_chars|].
      intros a [?| ->]; [by left|]. right. set_solver.
    + ts_literal.
    + case_decide; ts_literal.
    + ts_literal.
Qed.

Lemma clock_ts_chars hh mm ss :
  0 ≤ hh → 0 ≤ mm → 0 ≤ ss →
  Forall is_ts_char (list_ascii_of_string (clock hh mm ss)).
Proof.
  intros. unfold clock. rewrite !chars_app, !Forall_app.
  assert (∀ l, Forall is_digit l → Forall is_ts_char l) as Hd.
  { intros l Hl. eapply Forall_impl; [done|]. by left. }
  split; [by apply Hd, pretty_Z_digits|].
  split; [ts_literal|].
  split; [by apply Hd, fmt_02d_digits|].
  split; [ts_literal|].
  by apply Hd, fmt_02d_digits.
Qed.

Lemma timestamp_chars seconds ts :
  timestamp seconds = Some ts → Forall is_ts_char (list_ascii_of_string ts).
Proof.
  intros (days & hh & mm & ss & _ & _ & ? & ? & ? & ->)%timestamp_Some.
  rewrite chars_app, Forall_app. split; [|apply clock_ts_chars; lia].
  destruct (decide (days = 0)) as [->|Hd]; [constructor|].
  by destruct (day_part_chars days Hd) as (_ & _ & _ & ?).
Qed.

Lemma timestamp_eq_inv (a b : Z) (ts : string) :
  timestamp a = Some ts → timestamp b = Some ts → a = b.
Proof.
  intros (d1 & h1 & m1 & s1 & -> & _ & Hh1 & Hm1 & Hs1 & Hts1)%timestamp_Some
         (d2 & h2 & m2 & s2 & -> & _ & Hh2 & Hm2 & Hs2 & Hts2)%timestamp_Some.
  rewrite Hts1 in Hts2. apply (f_equal list_ascii_of_string) in Hts2.
  rewrite !chars_app in Hts2.
  destruct (clock_chars h1 m1 s1 Hm1 Hs1) as (t1 & Hc1 & Hl1 & Ht1).
  destruct (clock_chars h2 m2 s2 Hm2 Hs2) as (t2 & Hc2 & Hl2 & Ht2).
  rewrite Hc1, Hc2, !app_assoc in Hts2.
  apply app_inj_2 in Hts2 as [Hhead Htail]; [|congruence].
  (* minutes and seconds *)
  rewrite Ht1, Ht2 in Htail. injection Htail as Htail.
  apply app_inj_1 in Htail as [Hm Hs];
    [|by rewrite !chars_length, !fmt_02d_length by lia].
  apply chars_inj, (inj fmt_02d) in Hm. injection Hs as Hs.
  apply chars_inj, (inj fmt_02d) in Hs. subst m2 s2.
  (* days and hours *)
  assert (d1 = d2 ∧ h1 = h2) as [-> ->]; [|done].
  destruct (decide (d1 = 0)) as [->|Hd1], (decide (d2 = 0)) as [->|Hd2].
  - split; [done|]. simpl in Hhead. by apply chars_inj, (inj pretty) in Hhead.
  - destruct (day_part_chars d2 Hd2) as (r & Hr & _ & _).
    simpl in Hhead. rewrite Hr, <-app_assoc in Hhead. simpl in Hhead.
    pose proof (pretty_Z_digits h1 ltac:(lia)) as Hdig.
    rewrite Hhead, Forall_app, Forall_cons in Hdig.
    destruct Hdig as (_ & ? & _). by destruct space_not_digit.
  - destruct (day_part_chars d1 Hd1) as (r & Hr & _ & _).
    simpl in Hhead. rewrite Hr, <-app_assoc in Hhead. simpl in Hhead.
    pose proof (pretty_Z_digits h2 ltac:(lia)) as Hdig.
    rewrite <-Hhead, Forall_app, Forall_cons in Hdig.
    destruct Hdig as (_ & ? & _). by destruct space_not_digit.
  - destruct (day_part_chars d1 Hd1) as (r1 & Hr1 & Hn1 & _).
    destruct (day_part_chars d2 Hd2) as (r2 & Hr2 & Hn2 & _).
    pose proof Hhead as Hhead'.
    rewrite Hr1, Hr2, <-!app_assoc in Hhead'. simpl in Hhead'.
    apply split_first in Hhead' as [Hd _]; [|done..].
    apply chars_inj, (inj pretty) in Hd. subst d2. split; [done|].
    apply app_inv_head in Hhead. by apply chars_inj, (inj pretty) in Hhead.
Qed.

(** X19.  Two start times are written as the same timestamp only when they
    are the same second. *)
Theorem timestamp_inj (a b : Z) (ts : string) :
  timestamp a = Some ts → timestamp b = Some ts → a = b.
Proof. apply timestamp_eq_inv. Qed.

(** X20.  A written line determines the entry it was formatted from: two
    entries formatted to the same line have the same start second and the
    same text. *)
Theorem format_line_inj (e1 e2 : Entry) (line : list N) :
  format_line e1 = Some line → format_line e2 = Some line → e1 = e2.
Proof.
  unfold format_line. destruct e1 as [a t1], e2 as [b t2]. cbn [fst snd].
  destruct (timestamp a) as [ts1|] eqn:H1; [|done].
  destruct (timestamp b) as [ts2|] eqn:H2; [|done].
  cbn [mbind option_bind]. intros Hl1 Heq.
  rewrite <-Hl1 in Heq. apply (inj Some) in Heq. clear Hl1.
  rewrite !py_str_app in Heq.
  change (py_str "[") with [91%N] in Heq.
  change (py_str "] ") with [93%N; 32%N] in Heq.
  rewrite <-!app_assoc in Heq. cbn [app] in Heq. injection Heq as Heq.
  assert (∀ c ts, timestamp c = Some ts → 93%N ∉ py_str ts) as Hno.
  { intros c ts Hts (x & Hx & Hin)%list_elem_of_fmap.
    pose proof (timestamp_chars c ts Hts) as Hc.
    rewrite Forall_forall in Hc. specialize (Hc x Hin).
    assert (x = "]"%char) as ->.
    { rewrite <-(ascii_N_embedding x), <-Hx. done. }
    destruct Hc as [[_ Hc]|Hc]; [by apply Hc|].
    set_solver. }
  apply split_first in Heq as [Hts Hrest]; [|by eapply Hno..].
  apply py_str_inj in Hts. subst ts2.
  injection Hrest as Hrest. apply app_inv_tail in Hrest.
  f_equal; [|done]. by eapply timestamp_eq_inv.
Qed.

(** X21.  A start time below ten hours is written as ["H:MM:SS"]: the hour,
    the minute and the second on one, two and two digits, seven characters
    in all. *)
Theorem timestamp_short (seconds : Z) :
  0 ≤ seconds < 36000 →
  timestamp seconds
  = Some (clock (seconds `div` 3600) ((seconds `div` 60) `mod` 60) (seconds `mod` 60)) ∧
  String.length
    (clock (seconds `div` 3600) ((seconds `div` 60) `mod` 60) (seconds `mod` 60))
  = 7%nat.
Proof.
  intros Hs. unfold timestamp.
  rewrite (Z.div_small seconds 86400), (Z.mod_small seconds 86400) by lia.
  rewrite decide_True by lia.
  rewrite Z.div_div by lia. change (60 * 60) with 3600.
  split; [done|].
  assert (0 ≤ seconds `div` 3600 < 10) as Hh.
  { split; [apply Z.div_pos; lia|apply Z.div_lt_upper_bound; lia]. }
  pose proof (Z.mod_pos_bound (seconds `div` 60) 60 ltac:(done)).
  pose proof (Z.mod_pos_bound seconds 60 ltac:(done)).
  rewrite <-chars_length.
  destruct (clock_chars (seconds `div` 3600) ((seconds `div` 60) `mod` 60)
              (seconds `mod` 60)) as (tl & Hc & Hl & _); [lia..|].
  rewrite Hc, length_app, Hl, pretty_digit by lia. done.
Qed.

Lemma file_name_chunk_inj stem p q :
  file_name (ChunkText stem p) = file_name (ChunkText stem q) → p = q.
Proof.
  simpl. intros H. apply (inj (String.app stem)), (inj (String.app "_part")) in H.
  apply (f_equal list_ascii_of_string) in H. rewrite !chars_app in H.
  apply app_inv_tail, chars_inj in H. by apply (inj fmt_02d).
Qed.

Lemma file_name_chunk_ne stem p :
  file_name (ChunkText stem p) ≠ file_name (Transcript stem).
Proof.
  simpl. intros H. apply (inj (String.app stem)) in H.
  change ("_part" +:+ fmt_02d p +:+ ".txt")
    with (String "_" ("part" +:+ fmt_02d p +:+ ".txt")) in H.
  done.
Qed.

(** ** Windows *)

Section more_windows.
Context (cfg : Config).

Lemma window_read_range total (i : nat) w :
  0 < chunk_duration_min cfg →
  0 ≤ chunk_overlap_sec cfg < chunk_duration_sec cfg →
  windows cfg total !! i = Some w →
  Z.of_nat i * chunk_length_ms cfg < total ∧
  nominal_start w = Z.of_nat i * chunk_length_ms cfg ∧
  nominal_end cfg w = (Z.of_nat i + 1) * chunk_length_ms cfg ∧
  read_start total w
    = (if decide (i = 0%nat) then 0
       else Z.of_nat i * chunk_length_ms cfg - overlap_ms cfg) ∧
  read_end total w
    = Z.min total ((Z.of_nat i + 1) * chunk_length_ms cfg + overlap_ms cfg) ∧
  0 ≤ overlap_ms cfg < chunk_length_ms cfg.
Proof.
  intros Hmin Hov Hw. apply windows_lookup in Hw as [Hlt ->]; [|done].
  assert (0 ≤ overlap_ms cfg < chunk_length_ms cfg) as Hovms
    by (unfold overlap_ms, chunk_length_ms; lia).
  assert (0 < chunk_length_ms cfg) as Hlen by lia.
  unfold chunk_window, read_start, read_end, nominal_start, nominal_end,
    owner_hi, slice_extent, parse_position.
  fold (chunk_length_ms cfg).
  destruct (Z.eqb_spec (Z.of_nat i) 0) as [Hi|Hi]; simpl;
    (case_decide; [|]); try lia;
    repeat (match goal with
            | |- context [if ?a <? ?b then _ else _] =>
                destruct (Z.ltb_spec a b)
            end);
    unfold chunk_length_ms in *; repeat split; nia.
Qed.

(** X1.  The number of windows is the length of the audio divided by the
    chunk length, rounded up; an audio of length 0 has none. *)
Theorem window_count total :
  0 < chunk_duration_min cfg → 0 ≤ total →
  Z.of_nat (length (windows cfg total))
  = (total + chunk_length_ms cfg - 1) `div` chunk_length_ms cfg.
Proof.
  intros Hmin Htot.
  destruct (script_lengths_pos cfg Hmin) as [_ Hlen].
  destruct (decide (total = 0)) as [->|Hne].
  - unfold windows, start_points, py_range, range_len. simpl.
    rewrite Z.div_small by lia. done.
  - destruct (windows_length cfg total Hmin ltac:(lia)) as (n & -> & Hlo & Hhi).
    apply (Z.div_unique _ _ _
             (total + chunk_length_ms cfg - 1
              - Z.of_nat (S n) * chunk_length_ms cfg)); lia.
Qed.

(** X2.  Every instant of the audio that lies in a window's nominal range
    lies in the range of audio read for that window. *)
Theorem read_covers_owned total (i : nat) w t :
  0 < chunk_duration_min cfg →
  0 ≤ chunk_overlap_sec cfg < chunk_duration_sec cfg →
  windows cfg total !! i = Some w →
  nominal_start w ≤ t < nominal_end cfg w → t < total →
  read_start total w ≤ t < read_end total w.
Proof.
  intros Hmin Hov Hw Ht Htot.
  destruct (window_read_range total i w Hmin Hov Hw)
    as (Hlt & Hs & He & Hrs & Hre & Hovms).
  rewrite Hrs, Hre. case_decide; lia.
Qed.

(** X3.  The slice cut for a window lies inside the audio and is never longer
    than one chunk plus the overlap on both sides. *)
Theorem read_length_bound total (i : nat) w :
  0 < chunk_duration_min cfg →
  0 ≤ chunk_overlap_sec cfg < chunk_duration_sec cfg →
  windows cfg total !! i = Some w →
  0 ≤ read_start total w ∧ read_start total w < read_end total w ∧
  read_end total w ≤ total ∧
  read_end total w - read_start total w
    ≤ chunk_length_ms cfg + 2 * overlap_ms cfg.
Proof.
  intros Hmin Hov Hw.
  destruct (window_read_range total i w Hmin Hov Hw)
    as (Hlt & Hs & He & Hrs & Hre & Hovms).
  rewrite Hrs, Hre. case_decide; nia.
Qed.

Lemma single_window_aux total :
  0 < chunk_duration_min cfg →
  0 < total ≤ chunk_length_ms cfg →
  ∃ w, windows cfg total = [w] ∧ w_idx w = 0 ∧ start_ms w = 0.
Proof.
  intros Hmin Htot.
  destruct (windows_length cfg total Hmin ltac:(lia)) as (n & Hn & Hlo & _).
  assert (n = 0%nat) as -> by nia.
  destruct (windows cfg total) as [|w [|??]] eqn:Hws; simplify_eq/=.
  assert (windows cfg total !! 0%nat = Some w) as Hw by (by rewrite Hws).
  exists w. split; [done|].
  by apply windows_lookup in Hw as [_ ->].
Qed.

(** X4.  An audio no longer than one chunk gets exactly one window, of index
    0, whose slice is the whole audio. *)
Theorem single_window total :
  0 < chunk_duration_min cfg →
  0 ≤ chunk_overlap_sec cfg < chunk_duration_sec cfg →
  0 < total ≤ chunk_length_ms cfg →
  ∃ w, windows cfg total = [w] ∧ w_idx w = 0 ∧ start_ms w = 0 ∧
       read_start total w = 0 ∧ read_end total w = total.
Proof.
  intros Hmin Hov Htot.
  destruct (single_window_aux total Hmin Htot) as (w & Hws & Hidx & Hms).
  assert (windows cfg total !! 0%nat = Some w) as Hw by (by rewrite Hws).
  exists w. split; [done|].
  destruct (window_read_range total 0 w Hmin Hov Hw)
    as (_ & _ & _ & Hrs & Hre & Hovms).
  rewrite Hrs, Hre. simpl. repeat split; lia.
Qed.
End more_windows.

Lemma window_count_witness :
  0 < chunk_duration_min script_config ∧ 0 ≤ 125000 ∧
  Z.of_nat (length (windows script_config 125000))
  = (125000 + chunk_length_ms script_config - 1)
      `div` chunk_length_ms script_config.
Proof.
  assert (0 < chunk_duration_min script_config) as Hmin by (by vm_compute).
  split; [done|]. split; [lia|].
  apply (window_count script_config 125000 Hmin). lia.
Defined.

Lemma read_covers_owned_witness :
  50000 ≤ 61500 < 125000.
Proof.
  apply (read_covers_owned script_config 125000 1
           {| w_idx := 1; start_point := 60000; start_ms := 50000;
              end_ms := 130000 |} 61500);
    [by vm_compute|split; by vm_compute|reflexivity|split; by vm_compute|lia].
Defined.

Lemma read_length_bound_witness :
  0 ≤ 110000 ∧ 110000 < 125000 ∧ 125000 ≤ 125000 ∧
  125000 - 110000 ≤ chunk_length_ms script_config + 2 * overlap_ms script_config.
Proof.
  apply (read_length_bound script_config 125000 2
           {| w_idx := 2; start_point := 120000; start_ms := 110000;
              end_ms := 190000 |});
    [by vm_compute|split; by vm_compute|reflexivity].
Defined.

Lemma single_window_witness :
  ∃ w, windows script_config 30000 = [w] ∧ w_idx w = 0 ∧ start_ms w = 0 ∧
       read_start 30000 w = 0 ∧ read_end 30000 w = 30000.
Proof.
  apply (single_window script_config 30000);
    [by vm_compute|split; by vm_compute|split; by vm_compute].
Defined.

(** ** The [all_segments] dict *)

(** X5.  After [all_segments[idx].append(e)] (creating the key when absent)
    the list under [idx] is the former one, or the empty list, followed by
    [e]; the list under any other key is unchanged. *)
Theorem dict_append_get (d : list (Z * list Entry)) (idx k : Z) (e : Entry) :
  dict_get (dict_append d idx e) k
  = if decide (k = idx) then Some (default [] (dict_get d idx) ++ [e])
    else dict_get d k.
Proof.
  induction d as [|[k' v] d IH]; simpl.
  - destruct (decide (idx = k)) as [->|Hn];
      [by rewrite !decide_True by done|by rewrite !decide_False by done].
  - destruct (decide (k' = idx)) as [->|Hk'], (decide (k = idx)) as [->|Hk];
      simpl; rewrite ?IH;
      repeat (first [rewrite decide_True by done | rewrite decide_False by done]);
      done.
Qed.

(** X6.  Appending under a key keeps the keys in their order, puts a new key
    last, and never makes a key occur twice. *)
Theorem dict_append_keys (d : list (Z * list Entry)) (idx : Z) (e : Entry) :
  (dict_append d idx e).*1
    = (if decide (idx ∈ d.*1) then d.*1 else d.*1 ++ [idx]) ∧
  (NoDup d.*1 → NoDup (dict_append d idx e).*1).
Proof.
  assert ((dict_append d idx e).*1
          = if decide (idx ∈ d.*1) then d.*1 else d.*1 ++ [idx]) as Hk.
  { induction d as [|[k v] d IH]; [done|].
    cbn [dict_append fmap list_fmap fst].
    destruct (decide (k = idx)) as [->|Hne]; cbn [fmap list_fmap fst].
      + rewrite decide_True; [done|left].
      + rewrite IH. destruct (decide (idx ∈ d.*1)).
        * rewrite decide_True; [done|by right].
        * rewrite decide_False; [done|]. rewrite not_elem_of_cons. naive_solver. }
  split; [done|]. rewrite Hk. intros Hnd. case_decide; [done|].
  apply NoDup_app. split; [done|]. split; [|apply NoDup_singleton].
  intros x Hx ->%list_elem_of_singleton. done.
Qed.

Section more_loops.
Context (cfg : Config).
Implicit Types (pool : list (Z * list Entry)).

(** X7.  The chunk loop leaves in [all_segments] one item for each window
    whose call returned at least one segment, in window order, and writes one
    chunk transcript for each window whose call returned. *)
Theorem chunk_loop_items f total :
  chunk_loop cfg f total
  = (omap (window_entries f) (windows cfg total),
     omap (window_file f) (windows cfg total)).
Proof. apply chunk_loop_eq. Qed.

Lemma omap_all_None {A B} (g : A → option B) (l : list A) :
  (∀ x, x ∈ l → g x = None) → omap g l = [].
Proof.
  induction l as [|x l IH]; intros H; [done|].
  cbn [omap list_omap]. rewrite (H x) by left. apply IH.
  intros y Hy. apply H. by right.
Qed.

(** X8.  When [model.transcribe] raises on every window of a file, no chunk
    transcript is written and the compiled transcript is written with no
    line. *)
Theorem all_windows_fail f total :
  (∀ w, w ∈ windows cfg total → transcribe_chunk f (w_idx w) = None) →
  process_file cfg f total = [(Transcript (stem f), [])].
Proof.
  intros Hfail. unfold process_file. rewrite chunk_loop_eq. cbn [fst snd].
  rewrite !omap_all_None; [done| |].
  - intros w Hw. unfold window_entries. by rewrite Hfail.
  - intros w Hw. unfold window_file. by rewrite Hfail.
Qed.

(** X9.  For a pool with distinct keys, an entry is a line of the compiled
    transcript exactly when some item holds it under an index [idx] with
    [idx * chunk_duration_sec ≤ start < (idx + 1) * chunk_duration_sec]. *)
Theorem compiled_content pool (e : Entry) :
  NoDup pool.*1 →
  e ∈ compiled cfg pool ↔
  ∃ idx l, (idx, l) ∈ pool ∧ e ∈ l ∧
    idx * chunk_duration_sec cfg ≤ e.1 < (idx + 1) * chunk_duration_sec cfg.
Proof.
  intros Hnd. rewrite compiled_elem by done.
  by setoid_rewrite owned_spec.
Qed.

(** X10.  No line of a file's compiled transcript has a negative start time,
    and none starts a full chunk or more after the end of the audio. *)
Theorem compiled_start_bounds f total (e : Entry) :
  0 < chunk_duration_min cfg →
  e ∈ compiled cfg (chunk_loop cfg f total).1 →
  0 ≤ e.1 ∧ e.1 * 1000 < total + chunk_length_ms cfg.
Proof.
  intros Hmin (idx & l & Hp & _ & Ho)%compiled_elem; [|apply pool_NoDup].
  apply pool_elem in Hp as (i & w & _ & Hw & Hidx & _).
  pose proof (windows_idx cfg total i w Hw) as Hi.
  apply windows_lookup in Hw as [Hlt _]; [|done].
  apply owned_spec in Ho. unfold owner_lo, owner_hi in Ho.
  destruct (script_lengths_pos cfg Hmin).
  unfold chunk_length_ms in *. nia.
Qed.

Lemma compile_segments_all (idx : Z) (U : gset (Z * list N)) (l : list Entry) :
  NoDup l →
  (∀ e, e ∈ l → owned cfg idx e.1 = true ∧ e ∉ U) →
  (compile_segments cfg idx U l).2 = l.
Proof.
  revert U. induction l as [|x l IH]; intros U Hnd Hl; [done|].
  apply NoDup_cons in Hnd as [Hx Hnd].
  rewrite compile_segments_cons.
  destruct (Hl x) as [Hox HxU]; [left|].
  rewrite decide_False by (intros [?|?]; [done|congruence]).
  simpl. f_equal. apply IH; [done|].
  intros e He. destruct (Hl e) as [? ?]; [by right|].
  split; [done|]. set_solver.
Qed.

Lemma window_lines_all (p : Z * list Entry) :
  NoDup p.2 → (∀ e, e ∈ p.2 → owned cfg p.1 e.1 = true) →
  window_lines cfg p = sorted p.2.
Proof.
  intros Hnd Ho. unfold window_lines. apply compile_segments_all.
  - by rewrite sorted_Permutation.
  - intros e He. rewrite sorted_Permutation in He. split; [auto|set_solver].
Qed.

(** X11.  When every entry of the pool lies in the range of the index it is
    under and no item repeats an entry, the compile loop drops nothing: the
    transcript is the items' lists, each sorted, one after the other. *)
Theorem compiled_keeps_clean_pool pool :
  NoDup pool.*1 →
  (∀ idx l, (idx, l) ∈ pool →
     NoDup l ∧
     ∀ e, e ∈ l →
       idx * chunk_duration_sec cfg ≤ e.1 < (idx + 1) * chunk_duration_sec cfg) →
  compiled cfg pool = mjoin (sorted <$> pool.*2) ∧
  compiled cfg pool ≡ₚ mjoin pool.*2.
Proof.
  intros Hnd Hclean.
  assert (compiled cfg pool = mjoin (sorted <$> pool.*2)) as Heq.
  { rewrite compiled_local by done. f_equal.
    rewrite <-list_fmap_compose. apply list_fmap_ext.
    intros i [idx l] Hp%list_elem_of_lookup_2. simpl.
    destruct (Hclean idx l Hp) as [Hl Ho].
    apply window_lines_all; [done|]. intros e He. apply owned_spec.
    by apply Ho. }
  split; [done|]. rewrite Heq. clear.
  induction pool as [|[idx l] pool IH]; [done|].
  cbn [fmap list_fmap mjoin list_join snd]. by rewrite sorted_Permutation, IH.
Qed.

(** X13.  Every line of a file's compiled transcript is a line of one of the
    chunk transcripts written for that file. *)
Theorem compiled_lines_from_chunks f total (e : Entry) :
  e ∈ compiled cfg (chunk_loop cfg f total).1 →
  ∃ part lines,
    (ChunkText (stem f) part, lines) ∈ (chunk_loop cfg f total).2 ∧ e ∈ lines.
Proof.
  intros (idx & l & Hp & He & _)%compiled_elem; [|apply pool_NoDup].
  apply pool_elem in Hp as (i & w & segs & Hw & <- & Hr & ->).
  exists (w_idx w + 1), (to_entry w <$> segs). split; [|done].
  rewrite chunk_loop_eq. cbn [snd]. apply list_elem_of_omap.
  exists w. split; [by eapply list_elem_of_lookup_2|].
  unfold window_file. by rewrite Hr.
Qed.
End more_loops.

(** ** The batch and the files written *)

Section batch.
Context (cfg : Config).
Implicit Types (files before after : list AudioFile) (f : AudioFile).

Lemma chunked_batch_app before after :
  (chunked_batch cfg before).2 = Finished →
  chunked_batch cfg (before ++ after)
  = ((chunked_batch cfg before).1 ++ (chunked_batch cfg after).1,
     (chunked_batch cfg after).2).
Proof.
  induction before as [|g before IH]; simpl; intros Hfin.
  { by destruct (chunked_batch cfg after). }
  case_bool_decide; [|by apply IH].
  destruct (from_file g); [|done]. simpl in *.
  rewrite IH by done. simpl. by rewrite app_assoc.
Qed.

Lemma whole_batch_app before after :
  (whole_batch before).2 = Finished →
  whole_batch (before ++ after)
  = ((whole_batch before).1 ++ (whole_batch after).1, (whole_batch after).2).
Proof.
  induction before as [|g before IH]; simpl; intros Hfin.
  { by destruct (whole_batch after). }
  case_bool_decide; [|by apply IH].
  destruct (from_file g); [|done].
  destruct (transcribe_file g); simpl in *; rewrite IH by done; done.
Qed.

(** X14.  A path whose suffix is not a recognised audio extension is passed
    over without being loaded: the script does on a scan what it does on the
    audio files of the scan. *)
Theorem unrecognised_suffix_skipped model_name files :
  script model_name cfg files
  = script model_name cfg
      (filter (λ f, suffix_lower f ∈ audio_extensions) files).
Proof.
  unfold script. destruct (use_chunks model_name).
  - induction files as [|g files IH]; [done|].
    rewrite filter_cons. simpl. case_bool_decide.
    + rewrite decide_True by done. simpl. rewrite bool_decide_eq_true_2 by done.
      destruct (from_file g); [|done]. by rewrite IH.
    + by rewrite decide_False.
  - induction files as [|g files IH]; [done|].
    rewrite filter_cons. simpl. case_bool_decide.
    + rewrite decide_True by done. simpl. rewrite bool_decide_eq_true_2 by done.
      destruct (from_file g); [|done]. by rewrite IH.
    + by rewrite decide_False.
Qed.

(** X15.  When the script reaches its end on a first list of files, what it
    does on that list followed by a second one is what it writes for the
    first followed by what it does on the second. *)
Theorem batch_app model_name before after :
  (script model_name cfg before).2 = Finished →
  script model_name cfg (before ++ after)
  = ((script model_name cfg before).1 ++ (script model_name cfg after).1,
     (script model_name cfg after).2).
Proof.
  unfold script. destruct (use_chunks model_name).
  - apply chunked_batch_app.
  - apply whole_batch_app.
Qed.

(** X17.  In the whole-file variant, an audio file that decodes but on which
    [model.transcribe] raises is passed over: nothing is written for it and
    the other files are processed as if it were not in the scan. *)
Theorem whole_file_failure_skipped model_name before f after total :
  use_chunks model_name = false →
  from_file f = Some total →
  transcribe_file f = None →
  script model_name cfg (before ++ f :: after)
  = script model_name cfg (before ++ after).
Proof.
  unfold script. intros -> Hdec Hfail.
  induction before as [|g before IH]; simpl.
  - rewrite Hdec, Hfail. by case_bool_decide.
  - by rewrite IH.
Qed.

Lemma window_file_names f (ws : list Window) :
  NoDup (w_idx <$> ws) →
  NoDup (file_name <$> (omap (window_file f) ws).*1) ∧
  ∀ n, n ∈ (omap (window_file f) ws).*1 →
       ∃ w, w ∈ ws ∧ n = ChunkText (stem f) (w_idx w + 1).
Proof.
  induction ws as [|w ws IH]; intros Hnd.
  { split; [constructor|]. by intros n ?%elem_of_nil. }
  cbn [fmap list_fmap] in Hnd. apply NoDup_cons in Hnd as [Hw Hnd].
  destruct (IH Hnd) as [IHnd IHin].
  cbn [omap list_omap].
  destruct (window_file f w) as [p|] eqn:Hp; cbn [fmap list_fmap].
  - assert (p.1 = ChunkText (stem f) (w_idx w + 1)) as ->.
    { unfold window_file in Hp.
      destruct (transcribe_chunk f (w_idx w)); by simplify_eq. }
    split.
    + apply NoDup_cons. split; [|done].
      intros (n & Hn & (w' & Hw' & ->)%IHin)%list_elem_of_fmap.
      apply file_name_chunk_inj in Hn. apply Hw.
      assert (w_idx w = w_idx w') as -> by lia. by apply list_elem_of_fmap_2.
    + intros n [->|(w' & ? & ->)%IHin]%elem_of_cons.
      * exists w. split; [left|done].
      * exists w'. split; [by right|done].
  - split; [done|]. intros n (w' & ? & ->)%IHin. exists w'. split; [by right|done].
Qed.

(** X18.  The files written for one audio file all have different names: the
    chunk transcripts among themselves, and each of them from the compiled
    transcript. *)
Theorem process_file_names_distinct f total :
  NoDup (file_name <$> (process_file cfg f total).*1).
Proof.
  unfold process_file. rewrite chunk_loop_eq. cbn [fst snd].
  rewrite !fmap_app. cbn [fmap list_fmap fst].
  destruct (window_file_names f (windows cfg total)) as [Hnd Hin].
  { apply StronglySorted_lt_NoDup, windows_idx_sorted. }
  apply NoDup_app. split; [done|]. split; [|apply NoDup_singleton].
  intros x (n & -> & (w & _ & ->)%Hin)%list_elem_of_fmap
    Hx%list_elem_of_singleton.
  by apply file_name_chunk_ne in Hx.
Qed.
End batch.

(** ** Instances *)

Lemma all_windows_fail_witness :
  process_file script_config mute_file 125000 = [(Transcript "mute", [])].
Proof.
  apply (all_windows_fail script_config mute_file 125000).
  intros w _. reflexivity.
Defined.

Lemma compiled_content_witness :
  (60, py_str "hello")
    ∈ compiled script_config
        [(0, [(60, py_str "hello")]); (1, [(60, py_str "hello")])] ↔
  ∃ idx l,
    (idx, l) ∈ [(0, [(60, py_str "hello")]); (1, [(60, py_str "hello")])] ∧
    (60, py_str "hello") ∈ l ∧
    idx * chunk_duration_sec script_config ≤ 60
      < (idx + 1) * chunk_duration_sec script_config.
Proof.
  apply (compiled_content script_config
           [(0, [(60, py_str "hello")]); (1, [(60, py_str "hello")])]
           (60, py_str "hello")).
  apply (bool_decide_unpack _). by vm_compute.
Defined.

Lemma compiled_start_bounds_witness :
  0 ≤ 60 ∧ 60 * 1000 < 125000 + chunk_length_ms script_config.
Proof.
  apply (compiled_start_bounds script_config hello_file 125000
           (60, py_str "hello")); [by vm_compute|].
  apply (bool_decide_unpack _). by vm_compute.
Defined.

Lemma compiled_keeps_clean_pool_witness :
  compiled script_config
    [(0, [(5, py_str "b"); (5, py_str "a")]); (1, [(61, py_str "c")])]
  = [(5, py_str "a"); (5, py_str "b"); (61, py_str "c")].
Proof.
  apply (compiled_keeps_clean_pool script_config
           [(0, [(5, py_str "b"); (5, py_str "a")]); (1, [(61, py_str "c")])]).
  - apply (bool_decide_unpack _). by vm_compute.
  - intros idx l Hin.
    apply elem_of_cons in Hin as [[= -> ->]|Hin];
      [|apply list_elem_of_singleton in Hin as [= -> ->]].
    + split; [apply (bool_decide_unpack _); by vm_compute|].
      apply Forall_forall. repeat constructor; by vm_compute.
    + split; [apply (bool_decide_unpack _); by vm_compute|].
      apply Forall_forall. repeat constructor; by vm_compute.
Defined.

Lemma batch_app_witness :
  script "large" script_config ([hello_file] ++ [gap_file])
  = ((script "large" script_config [hello_file]).1
       ++ (script "large" script_config [gap_file]).1,
     (script "large" script_config [gap_file]).2).
Proof.
  apply (batch_app script_config "large" [hello_file] [gap_file]). reflexivity.
Defined.

Lemma whole_file_failure_skipped_witness :
  script "base" script_config ([short_file] ++ gap_file :: [hello_file])
  = script "base" script_config ([short_file] ++ [hello_file]).
Proof.
  apply (whole_file_failure_skipped script_config "base" [short_file] gap_file
           [hello_file] 125000); reflexivity.
Defined.

Lemma timestamp_inj_witness :
  timestamp 3725 = Some "1:02:05"%string ∧ 3725 = 3725.
Proof.
  split; [reflexivity|].
  apply (timestamp_inj 3725 3725 "1:02:05"); reflexivity.
Defined.

Lemma format_line_inj_witness :
  format_line (61, py_str "hi") = Some (py_str "[0:01:01] hi" ++ [10%N]) ∧
  (61, py_str "hi") = (61, py_str "hi").
Proof.
  split; [reflexivity|].
  apply (format_line_inj (61, py_str "hi") (61, py_str "hi")
           (py_str "[0:01:01] hi" ++ [10%N])); reflexivity.
Defined.

Lemma timestamp_short_witness :
  timestamp 3725 = Some (clock 1 2 5) ∧ String.length (clock 1 2 5) = 7%nat.
Proof.
  apply (timestamp_short 3725). lia.
Defined.

Lemma compiled_lines_from_chunks_witness :
  ∃ part lines,
    (ChunkText "hello" part, lines)
      ∈ (chunk_loop script_config hello_file 125000).2 ∧
    (60, py_str "hello") ∈ lines.
Proof.
  apply (compiled_lines_from_chunks script_config hello_file 125000
           (60, py_str "hello")).
  apply (bool_decide_unpack _). by vm_compute.
Defined.

(** * The first and last windows, and lines that cannot be written *)

(** C3 as stated fails on a 125 s file: the last window is not unconstrained
    above (it drops the start 180, which its own limit [(2 + 1) * 60]
    excludes) and the first window is not unconstrained below (it drops the
    start -2). *)
Lemma ownership_limits_apply_to_every_window :
  let pool := (chunk_loop script_config edge_file 125000).1 in
  let T := compiled script_config pool in
  pool = [(0, [(-2, py_str "early")]);
          (2, [(125, py_str "at125"); (180, py_str "at180")])] ∧
  T = [(125, py_str "at125")] ∧
  ¬ (∀ (i : nat) w lines (e : Entry),
       windows script_config 125000 !! i = Some w →
       (w_idx w, lines) ∈ pool → e ∈ lines →
       (e ∈ T ↔
        (i = 0%nat ∨ nominal_start w ≤ e.1 * 1000) ∧
        (last (windows script_config 125000) = Some w
         ∨ e.1 * 1000 < nominal_end script_config w))).
Proof.
  intros pool T.
  assert (pool = [(0, [(-2, py_str "early")]);
                  (2, [(125, py_str "at125"); (180, py_str "at180")])])
    as Hpool by (by vm_compute).
  assert (T = [(125, py_str "at125")]) as HT by (by vm_compute).
  split; [done|]. split; [done|]. intros H.
  specialize (H 2%nat
                {| w_idx := 2; start_point := 120000; start_ms := 110000;
                   end_ms := 190000 |}
                [(125, py_str "at125"); (180, py_str "at180")]
                (180, py_str "at180") eq_refl).
  rewrite Hpool, HT in H.
  assert ((180, py_str "at180") ∈ [(125, py_str "at125")]) as Hin.
  { apply H.
    - right. left.
    - right. left.
    - split; [right; by vm_compute|left; reflexivity]. }
  apply list_elem_of_singleton in Hin. discriminate Hin.
Qed.

(** ** The loops with the exit on a line that cannot be written *)

Lemma forallb_writable (es : list Entry) :
  forallb writable es = true ↔ Forall (λ e, writable e = true) es.
Proof.
  induction es as [|e es IH]; simpl.
  - split; [constructor|done].
  - rewrite andb_true_iff, IH, Forall_cons. done.
Qed.

Lemma written_before_all (es : list Entry) :
  forallb writable es = true → written_before es = es.
Proof.
  induction es as [|e es IH]; simpl; [done|].
  intros [-> ?]%andb_true_iff. by rewrite IH.
Qed.

Section checked.
Context (cfg : Config).
Implicit Types (f : AudioFile) (ws : list Window) (files : list AudioFile).

Lemma chunk_loop_checked_status f st ws :
  (chunk_loop_checked f st ws).2 = Finished ↔
  ∀ w segments, w ∈ ws → transcribe_chunk f (w_idx w) = Some segments →
    Forall (λ e, writable e = true) (to_entry w <$> segments).
Proof.
  revert st. induction ws as [|w ws IH]; intros st; simpl.
  { split; [|done]. by intros _ w segs ?%elem_of_nil. }
  destruct (transcribe_chunk f (w_idx w)) as [segs|] eqn:Hr.
  - destruct (forallb writable (to_entry w <$> segs)) eqn:Hall.
    + rewrite IH. split.
      * intros H w' segs' [->|?]%elem_of_cons Hr'; [|by eapply H].
        rewrite Hr in Hr'. simplify_eq. by apply forallb_writable.
      * intros H w' segs' ? ?. eapply H; [by right|done].
    + simpl. split; [done|]. intros H.
      assert (forallb writable (to_entry w <$> segs) = true); [|congruence].
      apply forallb_writable. eapply H; [left|done].
  - rewrite IH. split.
    + intros H w' segs' [->|?]%elem_of_cons Hr'; [congruence|by eapply H].
    + intros H w' segs' ? ?. eapply H; [by right|done].
Qed.

Lemma chunk_loop_checked_ok f st ws :
  (chunk_loop_checked f st ws).2 = Finished →
  chunk_loop_checked f st ws = (foldl (chunk_step f) st ws, Finished).
Proof.
  revert st. induction ws as [|w ws IH]; intros st; simpl; [done|].
  unfold chunk_step at 2.
  destruct (transcribe_chunk f (w_idx w)) as [segs|] eqn:Hr; [|apply IH].
  destruct (forallb writable (to_entry w <$> segs)) eqn:Hall; [|done].
  rewrite written_before_all by done. apply IH.
Qed.

Lemma process_file_checked_status f total :
  (process_file_checked cfg f total).2 = Finished ↔
  ∀ w segments, w ∈ windows cfg total →
    transcribe_chunk f (w_idx w) = Some segments →
    Forall (λ e, writable e = true) (to_entry w <$> segments).
Proof.
  rewrite <-(chunk_loop_checked_status f ([], [])).
  unfold process_file_checked.
  by destruct (chunk_loop_checked f ([], []) (windows cfg total)).2.
Qed.

Lemma process_file_checked_ok f total :
  (process_file_checked cfg f total).2 = Finished →
  process_file_checked cfg f total = (process_file cfg f total, Finished).
Proof.
  unfold process_file_checked, process_file, chunk_loop.
  destruct (chunk_loop_checked f ([], []) (windows cfg total)).2 eqn:Hst;
    [|done].
  intros _. by rewrite (chunk_loop_checked_ok f _ _ Hst).
Qed.

Lemma chunked_batch_checked_status files :
  (chunked_batch_checked cfg files).2 = Finished ↔
  ∀ f, f ∈ files → suffix_lower f ∈ audio_extensions →
    is_Some (from_file f) ∧ lines_writable true cfg f.
Proof.
  induction files as [|g files IH]; simpl.
  { split; [|done]. by intros _ f ?%elem_of_nil. }
  case_bool_decide as Hext.
  - destruct (from_file g) as [t|] eqn:Hg.
    + destruct (process_file_checked cfg g t).2 eqn:Hst; simpl.
      * rewrite IH. split.
        -- intros H f [->|?]%elem_of_cons ?; [|by apply H].
           split; [by rewrite Hg|].
           intros total w segs Ht. rewrite Hg in Ht. simplify_eq.
           by apply process_file_checked_status.
        -- intros H f ? ?. apply H; [by right|done].
      * split; [done|]. intros H.
        destruct (H g) as [_ Hw]; [left|done|].
        assert ((process_file_checked cfg g t).2 = Finished); [|congruence].
        apply process_file_checked_status. intros w segs. by apply Hw.
    + split; [done|]. intros H.
      destruct (H g) as [[? ?] _]; [left|done|congruence].
  - rewrite IH. split.
    + intros H f [->|?]%elem_of_cons ?; [done|by apply H].
    + intros H f ? ?. apply H; [by right|done].
Qed.

Lemma chunked_batch_checked_ok files :
  (∀ f, f ∈ files → suffix_lower f ∈ audio_extensions →
        lines_writable true cfg f) →
  chunked_batch_checked cfg files = chunked_batch cfg files.
Proof.
  induction files as [|g files IH]; simpl; intros H; [done|].
  assert (chunked_batch_checked cfg files = chunked_batch cfg files) as IH'.
  { apply IH. intros f ? ?. refine (H f _ _); [by right|done]. }
  case_bool_decide as Hext; [|done].
  destruct (from_file g) as [t|] eqn:Hg; [|done].
  assert ((process_file_checked cfg g t).2 = Finished) as Hst.
  { apply process_file_checked_status. intros w segs.
    by apply (H g ltac:(left) Hext). }
  rewrite (process_file_checked_ok g t Hst). simpl. by rewrite IH'.
Qed.

Lemma whole_batch_checked_status files :
  (whole_batch_checked files).2 = Finished ↔
  ∀ f, f ∈ files → suffix_lower f ∈ audio_extensions →
    is_Some (from_file f) ∧ lines_writable false cfg f.
Proof.
  induction files as [|g files IH]; simpl.
  { split; [|done]. by intros _ f ?%elem_of_nil. }
  case_bool_decide as Hext.
  - destruct (from_file g) as [t|] eqn:Hg.
    + destruct (transcribe_file g) as [segs|] eqn:Hr.
      * destruct (forallb writable _) eqn:Hall; simpl.
        -- rewrite IH. split.
           ++ intros H f [->|?]%elem_of_cons ?; [|by apply H].
              split; [by rewrite Hg|].
              intros segs' Hr'. rewrite Hr in Hr'. simplify_eq.
              by apply forallb_writable.
           ++ intros H f ? ?. apply H; [by right|done].
        -- split; [done|]. intros H.
           destruct (H g) as [_ Hw]; [left|done|].
           specialize (Hw segs Hr). apply forallb_writable in Hw. congruence.
      * rewrite IH. split.
        -- intros H f [->|?]%elem_of_cons ?; [|by apply H].
           split; [by rewrite Hg|]. intros segs' Hr'. congruence.
        -- intros H f ? ?. apply H; [by right|done].
    + split; [done|]. intros H.
      destruct (H g) as [[? ?] _]; [left|done|congruence].
  - rewrite IH. split.
    + intros H f [->|?]%elem_of_cons ?; [done|by apply H].
    + intros H f ? ?. apply H; [by right|done].
Qed.

Lemma whole_batch_checked_ok files :
  (∀ f, f ∈ files → suffix_lower f ∈ audio_extensions →
        lines_writable false cfg f) →
  whole_batch_checked files = whole_batch files.
Proof.
  induction files as [|g files IH]; simpl; intros H; [done|].
  assert (whole_batch_checked files = whole_batch files) as IH'.
  { apply IH. intros f ? ?. refine (H f _ _); [by right|done]. }
  case_bool_decide as Hext; [|done].
  destruct (from_file g) as [t|] eqn:Hg; [|done].
  destruct (transcribe_file g) as [segs|] eqn:Hr; [|done].
  assert (forallb writable
            ((λ s, (int (seg_start s), strip (seg_text s))) <$> segs) = true)
    as ->.
  { apply forallb_writable. by apply (H g ltac:(left) Hext). }
  by rewrite IH'.
Qed.

(** X16.  With the exits on a line that cannot be written taken into account,
    the script reaches its last line exactly when, for every audio file of
    the scan, [AudioSegment.from_file] succeeds and every line the chosen
    variant writes for it can be formatted and encoded; a failure of
    [model.transcribe] never stops it. *)
Theorem batch_finished_iff model_name files :
  (script_checked model_name cfg files).2 = Finished ↔
  ∀ f, f ∈ files → suffix_lower f ∈ audio_extensions →
    is_Some (from_file f) ∧ lines_writable (use_chunks model_name) cfg f.
Proof.
  unfold script_checked. destruct (use_chunks model_name).
  - apply chunked_batch_checked_status.
  - apply whole_batch_checked_status.
Qed.

(** X22.  When every line the chosen variant writes for the audio files of a
    scan can be formatted and encoded, the script with the exits on such
    lines writes the files and ends as the script without them does. *)
Theorem script_checked_agrees model_name files :
  (∀ f, f ∈ files → suffix_lower f ∈ audio_extensions →
        lines_writable (use_chunks model_name) cfg f) →
  script_checked model_name cfg files = script model_name cfg files.
Proof.
  unfold script_checked, script. destruct (use_chunks model_name).
  - apply chunked_batch_checked_ok.
  - apply whole_batch_checked_ok.
Qed.
End checked.

Lemma script_checked_agrees_witness :
  script_checked "base" script_config [short_file; gap_file; notes_file]
  = script "base" script_config [short_file; gap_file; notes_file].
Proof.
  apply (script_checked_agrees script_config "base"
           [short_file; gap_file; notes_file]).
  intros f Hf _.
  rewrite !elem_of_cons in Hf.
  destruct Hf as [->|[->|[->|?%elem_of_nil]]]; [| |
    |done]; intros segs Hs; vm_compute in Hs; simplify_eq;
    repeat constructor.
Defined.

(** ** The two variants on a short file *)

Section variants.
Context (cfg : Config).

Lemma single_window_compiled f total segments :
  0 < chunk_duration_min cfg →
  0 < total ≤ chunk_length_ms cfg →
  transcribe_chunk f 0 = Some segments →
  let lines := (λ s, (int (seg_start s), strip (seg_text s))) <$> segments in
  StronglySorted entry_lt lines →
  (∀ e, e ∈ lines → 0 ≤ e.1 < chunk_duration_sec cfg) →
  chunk_loop cfg f total
    = (match lines with [] => [] | _ => [(0, lines)] end,
       [(ChunkText (stem f) 1, lines)]) ∧
  compiled cfg (chunk_loop cfg f total).1 = lines.
Proof.
  intros Hmin Htot Hr lines Hsorted Hrange.
  destruct (single_window_aux cfg total Hmin Htot) as (w & Hws & Hidx & Hms).
  assert (to_entry w <$> segments = lines) as Hlines.
  { apply list_fmap_ext. intros _ s _. unfold to_entry. rewrite Hms.
    change (0 `div` 1000) with 0. by rewrite Z.add_0_r. }
  assert (chunk_loop cfg f total
          = (match lines with [] => [] | _ => [(0, lines)] end,
             [(ChunkText (stem f) 1, lines)])) as Hloop.
  { rewrite chunk_loop_eq, Hws. cbn [omap list_omap].
    unfold window_entries, window_file. rewrite Hidx, Hr, <-Hlines.
    by destruct segments. }
  split; [done|]. rewrite Hloop. cbn [fst].
  destruct lines as [|e lines'] eqn:Hl; [done|]. rewrite <-Hl in *.
  unfold compiled. cbn [compile_loop fmap list_fmap mjoin list_join snd].
  rewrite app_nil_r.
  change (compile_segments cfg 0 ∅ (sorted lines)).2
    with (window_lines cfg (0, lines)).
  rewrite window_lines_all.
  - by apply sorted_id.
  - by apply StronglySorted_NoDup_lt.
  - intros e' He. apply owned_spec. unfold owner_lo, owner_hi.
    specialize (Hrange e' He). simpl. lia.
Qed.

(** X12.  For an audio file no longer than one chunk on which the model
    returns the same segments for the single chunk as for the whole file:
    when the whole-file variant of the script writes a transcript whose lines
    are in strictly ascending order of [(second, text)] with start times
    inside the first chunk, the chunked variant writes one chunk transcript
    with these lines and a compiled transcript with the same lines. *)
Theorem single_window_matches_whole_file whole_model chunk_model f total lines :
  use_chunks whole_model = false →
  use_chunks chunk_model = true →
  0 < chunk_duration_min cfg →
  0 < total ≤ chunk_length_ms cfg →
  suffix_lower f ∈ audio_extensions →
  from_file f = Some total →
  transcribe_chunk f 0 = transcribe_file f →
  script whole_model cfg [f] = ([(Transcript (stem f), lines)], Finished) →
  StronglySorted entry_lt lines →
  (∀ e, e ∈ lines → 0 ≤ e.1 < chunk_duration_sec cfg) →
  script chunk_model cfg [f]
  = ([(ChunkText (stem f) 1, lines); (Transcript (stem f), lines)], Finished).
Proof.
  unfold script. intros -> -> Hmin Htot Hext Hdec Hsame Hwhole Hsorted Hrange.
  cbn [whole_batch chunked_batch] in *.
  rewrite bool_decide_eq_true_2, Hdec in * by done.
  destruct (transcribe_file f) as [segments|] eqn:Hr; [|done].
  cbn [fst snd] in Hwhole. injection Hwhole as Hlines.
  rewrite <-Hlines in Hsorted, Hrange.
  destruct (single_window_compiled f total segments Hmin Htot Hsame
              Hsorted Hrange) as [Hloop Hcomp].
  cbn [fst snd]. unfold process_file. rewrite Hcomp, Hloop, Hlines. done.
Qed.
End variants.

Lemma single_window_matches_whole_file_witness :
  script "base" script_config [short_file]
  = ([(Transcript "short",
       [(0, py_str "one"); (4, py_str "two"); (21, py_str "three")])],
     Finished) ∧
  script "large" script_config [short_file]
  = ([(ChunkText "short" 1,
       [(0, py_str "one"); (4, py_str "two"); (21, py_str "three")]);
      (Transcript "short",
       [(0, py_str "one"); (4, py_str "two"); (21, py_str "three")])],
     Finished).
Proof.
  split; [reflexivity|].
  apply (single_window_matches_whole_file script_config "base" "large"
           short_file 30000
           [(0, py_str "one"); (4, py_str "two"); (21, py_str "three")]).
  - reflexivity.
  - reflexivity.
  - by vm_compute.
  - split; by vm_compute.
  - apply (bool_decide_unpack _). by vm_compute.
  - reflexivity.
  - reflexivity.
  - reflexivity.
  - repeat constructor; by left.
  - apply Forall_forall. repeat constructor; by vm_compute.
Defined.

(** On a file whose second window reports a start time beyond the range of
    [timedelta], the script ends inside that window's chunk transcript: the
    line before is written, no compiled transcript is, and the next file is
    not touched. *)
Lemma unwritable_line_stops_script :
  script_checked "large" script_config [big_file; hello_file]
  = ([(ChunkText "big" 1, [(3, py_str "a")]);
      (ChunkText "big" 2, [(54, py_str "b")])],
     Uncaught).
Proof. by vm_compute. Qed.
